(** * scores-ws example client: the subscribe / suspend / resume protocol

    A shallow embedding of [examples/client.py].  The script is an asyncio
    program over one or two websocket connections; it is embedded as a
    state-and-exception monad over a [World] that holds the connections, the
    task table of the event loop, standard output and a trace of the awaited
    operations.  Everything the script cannot control (whether a connection
    attempt is accepted, what the server sends and when, when the peer goes
    away) is data of the initial world, and every theorem quantifies over it. *)

From Stdlib Require Import String List Lia.
From stdpp Require Import base list sets strings.

Set Warnings "-register-all,-clear-no-such-hyp".

(** ** Values *)

(** A websocket message as [recv] returns it and [send] accepts it: [str] for
    a text frame, [bytes] for a binary frame. *)
Inductive Message :=
| Str (s : string)
| Bytes (b : string).

#[global] Instance Message_eq_dec : EqDecision Message.
Proof. solve_decision. Defined.

(** The Python values [json.loads] can return. *)
Inductive JSON :=
| JNone
| JBool (b : bool)
| JInt (lit : string)
| JFloat (lit : string)
| JStr (s : string)
| JList (items : list JSON)
| JDict (items : list (string * JSON)).

(** The exceptions the script can meet. *)
Inductive Exn :=
| CancelledError           (* asyncio.CancelledError *)
| ConnectionClosedOK       (* websockets.exceptions.ConnectionClosedOK *)
| ConnectionClosedError    (* websockets.exceptions.ConnectionClosedError *)
| OSError                  (* connect(): the transport could not be opened *)
| ValueError               (* json.loads: JSONDecodeError, UnicodeDecodeError *)
| KeyError (key : string)  (* dict[key] with the key absent *)
| TypeError.               (* subscripting a value that is not a dict *)

(** How the execution of a coroutine proceeds: it returns, it raises, it stays
    suspended at an [await] that does not complete, or (only inside the model)
    the iteration bound of a loop was too small. *)
Inductive Res (A : Type) :=
| Ok (a : A)
| Raise (e : Exn)
| Blocked
| Unfinished.
Arguments Ok {A} a.
Arguments Raise {A} e.
Arguments Blocked {A}.
Arguments Unfinished {A}.

(** ** The world *)

(** Connections and tasks are named by their index in the world's tables. *)
Abbreviation ConnId := nat (only parsing).
Abbreviation TaskId := nat (only parsing).

(** What the peer does once the messages it sends are used up. *)
Inductive Ending :=
| StayOpen     (* it sends nothing more and keeps the connection open *)
| CloseOK      (* it closes with a normal close code *)
| CloseError.  (* the connection is lost, or closed with an error code *)

(** The behaviour of the server on one accepted connection. *)
Record Script := mkScript {
  s_inbound : list Message;  (* the messages it sends, in order *)
  s_ending : Ending;
  s_accepts : nat            (* when it closes: how many client messages the
                                transport still takes before the close is seen *)
}.

Record Conn := mkConn {
  sent : list Message;      (* client-to-server messages, oldest first *)
  received : list Message;  (* messages [recv] has returned, oldest first *)
  pending : list Message;   (* messages of the server not yet returned *)
  ending : Ending;
  accepts : nat;
  closed : bool             (* the client closed it or has seen it closed *)
}.

(** Awaited operations, in the order they complete. *)
Inductive Op :=
| OConnect (ws : ConnId)
| OSend (ws : ConnId) (m : Message)
| ORecv (ws : ConnId) (m : Message)
| OClose (ws : ConnId)
| OSleep (seconds : nat).

#[global] Instance Op_eq_dec : EqDecision Op.
Proof. solve_decision. Defined.

(** The coroutines the script hands to [asyncio.create_task]. *)
Inductive Coroutine :=
| ProcessScores (websocket : ConnId).

(** A task of the event loop: not yet finished (with asyncio's [_must_cancel]
    flag), or finished with its outcome. *)
Inductive Task :=
| Pending (co : Coroutine) (must_cancel : bool)
| Done (r : Res unit).

(** How the coroutine that is running gets its next message. *)
Inductive Delivery :=
| Forever            (* nothing else is due: it waits as long as it takes *)
| Within (k : nat)   (* it runs while the main coroutine sleeps, and [k] more
                        messages arrive before the sleep is over *)
| Throw.             (* a requested cancellation is thrown in at its [await] *)

Record World := mkWorld {
  conns : list Conn;               (* indexed by connection id *)
  tasks : list Task;               (* indexed by task id *)
  future : list (option Script);   (* fate of the connection attempts to come *)
  window : nat;                    (* messages that arrive during one sleep *)
  mode : Delivery;
  clock : nat;                     (* seconds slept so far *)
  stdout : list string;
  trace : list Op
}.

Definition set_conns (f : list Conn → list Conn) (w : World) : World :=
  mkWorld (f (conns w)) (tasks w) (future w) (window w) (mode w) (clock w)
          (stdout w) (trace w).
Definition set_tasks (f : list Task → list Task) (w : World) : World :=
  mkWorld (conns w) (f (tasks w)) (future w) (window w) (mode w) (clock w)
          (stdout w) (trace w).
Definition set_future (f : list (option Script)) (w : World) : World :=
  mkWorld (conns w) (tasks w) f (window w) (mode w) (clock w)
          (stdout w) (trace w).
Definition set_mode (d : Delivery) (w : World) : World :=
  mkWorld (conns w) (tasks w) (future w) (window w) d (clock w)
          (stdout w) (trace w).
Definition tick (n : nat) (w : World) : World :=
  mkWorld (conns w) (tasks w) (future w) (window w) (mode w) (clock w + n)
          (stdout w) (trace w).
Definition emit (line : string) (w : World) : World :=
  mkWorld (conns w) (tasks w) (future w) (window w) (mode w) (clock w)
          (stdout w ++ [line]) (trace w).
Definition log (o : Op) (w : World) : World :=
  mkWorld (conns w) (tasks w) (future w) (window w) (mode w) (clock w)
          (stdout w) (trace w ++ [o]).

Definition set_conn (ws : ConnId) (cn : Conn) : World → World :=
  set_conns (fun l => <[ws := cn]> l).
Definition set_task (h : TaskId) (t : Task) : World → World :=
  set_tasks (fun l => <[h := t]> l).

(** The environment of one execution, and the world the script starts in. *)
Record Env := mkEnv {
  e_future : list (option Script);
  e_window : nat
}.

Definition boot (e : Env) : World :=
  mkWorld [] [] (e_future e) (e_window e) Forever 0 [] [].

(** ** The monad *)

Definition M (A : Type) : Type := World → Res A * World.

Definition ret {A} (a : A) : M A := fun w => (Ok a, w).
Definition raise {A} (e : Exn) : M A := fun w => (Raise e, w).

Definition bind {A B} (m : M A) (k : A → M B) : M B := fun w =>
  match m w with
  | (Ok a, w1) => k a w1
  | (Raise e, w1) => (Raise e, w1)
  | (Blocked, w1) => (Blocked, w1)
  | (Unfinished, w1) => (Unfinished, w1)
  end.

Notation "x <- c1 ;; c2" := (bind c1 (fun x => c2))
  (at level 100, c1 at next level, right associativity).
Notation "c1 ;; c2" := (bind c1 (fun _ => c2))
  (at level 100, right associativity).

(** [try: body / except ...: handler]: [handler e] is [None] when no [except]
    clause matches [e]. *)
Definition try_except {A} (body : M A) (handler : Exn → option (M A)) : M A :=
  fun w =>
  match body w with
  | (Raise e, w1) =>
      match handler e with
      | Some h => h w1
      | None => (Raise e, w1)
      end
  | other => other
  end.

(** A pure computation that may raise. *)
Definition lift {A} (r : Exn + A) : M A :=
  match r with
  | inl e => raise e
  | inr a => ret a
  end.

(** ** The transport: [websockets.asyncio.client] *)

Definition closed_exn (e : Ending) : Exn :=
  match e with
  | CloseError => ConnectionClosedError
  | _ => ConnectionClosedOK
  end.

Definition open_conn (s : Script) : Conn :=
  mkConn [] [] (s_inbound s) (s_ending s) (s_accepts s) false.

(** [connect(uri)]: the next connection attempt is accepted or refused. *)
Definition connect (uri : string) : M ConnId := fun w =>
  match future w with
  | Some s :: rest =>
      let ws := length (conns w) in
      (Ok ws,
       log (OConnect ws) (set_future rest (set_conns (fun l => l ++ [open_conn s]) w)))
  | None :: rest => (Raise OSError, set_future rest w)
  | [] => (Raise OSError, w)
  end.

Definition mark_closed (cn : Conn) : Conn :=
  mkConn (sent cn) (received cn) (pending cn) (ending cn) (accepts cn) true.

(** The connection after one more message went out, and after one more came in. *)
Definition wrote (m : Message) (cn : Conn) : Conn :=
  mkConn (sent cn ++ [m]) (received cn) (pending cn) (ending cn)
         (Nat.pred (accepts cn)) (closed cn).

Definition took (m : Message) (rest : list Message) (cn : Conn) : Conn :=
  mkConn (sent cn) (received cn ++ [m]) rest (ending cn) (accepts cn) (closed cn).

(** Whether the transport still takes a message from the client. *)
Definition writable (cn : Conn) : bool :=
  negb (closed cn) &&
  match ending cn with
  | StayOpen => true
  | _ => bool_decide (0 < accepts cn)
  end.

(** [websocket.send(m)]. *)
Definition send (ws : ConnId) (m : Message) : M unit := fun w =>
  match conns w !! ws with
  | None => (Raise ConnectionClosedError, w)
  | Some cn =>
      if writable cn then (Ok (), log (OSend ws m) (set_conn ws (wrote m cn) w))
      else (Raise (closed_exn (ending cn)), set_conn ws (mark_closed cn) w)
  end.

Definition spend (d : Delivery) : Delivery :=
  match d with
  | Within k => Within (Nat.pred k)
  | other => other
  end.

(** [websocket.recv()].  Cancelling a pending [recv] loses no message: it
    stays first in [pending]. *)
Definition recv (ws : ConnId) : M Message := fun w =>
  match mode w with
  | Throw => (Raise CancelledError, set_mode Forever w)
  | d =>
      match conns w !! ws with
      | None => (Raise ConnectionClosedError, w)
      | Some cn =>
          if closed cn then (Raise (closed_exn (ending cn)), w)
          else
            match d, pending cn with
            | Within 0, _ => (Blocked, w)
            | _, m :: rest =>
                (Ok m,
                 log (ORecv ws m)
                   (set_mode (spend d) (set_conn ws (took m rest cn) w)))
            | _, [] =>
                match ending cn with
                | StayOpen => (Blocked, w)
                | e => (Raise (closed_exn e), set_conn ws (mark_closed cn) w)
                end
            end
      end
  end.

(** [websocket.close()]. *)
Definition close (ws : ConnId) : M unit := fun w =>
  match conns w !! ws with
  | None => (Ok (), w)
  | Some cn => (Ok (), log (OClose ws) (set_conn ws (mark_closed cn) w))
  end.

(** [__aexit__] of the connection: it is closed on the way out, however the
    body ended; a body that never ends never gets there. *)
Definition aexit {A} (ws : ConnId) (ended : Res A * World) : Res A * World :=
  match ended with
  | (Ok a, w) => (Ok a, snd (close ws w))
  | (Raise e, w) => (Raise e, snd (close ws w))
  | other => other
  end.

(** [async with cm as websocket: body]. *)
Definition async_with {A} (cm : M ConnId) (body : ConnId → M A) : M A :=
  fun w =>
  match cm w with
  | (Ok ws, w1) => aexit ws (body ws w1)
  | (Raise e, w1) => (Raise e, w1)
  | (Blocked, w1) => (Blocked, w1)
  | (Unfinished, w1) => (Unfinished, w1)
  end.

(** [async for event in websocket: body], that is the connection's
    [__aiter__]: [while True: yield await self.recv()], left silently on
    [ConnectionClosedOK]. *)
Fixpoint aiter (bound : nat) (ws : ConnId) (body : Message → M unit) : M unit :=
  fun w =>
  match bound with
  | 0 => (Unfinished, w)
  | S bound' =>
      match recv ws w with
      | (Ok event, w1) =>
          match body event w1 with
          | (Ok _, w2) => aiter bound' ws body w2
          | other => other
          end
      | (Raise ConnectionClosedOK, w1) => (Ok (), w1)
      | (Raise e, w1) => (Raise e, w1)
      | (Blocked, w1) => (Blocked, w1)
      | (Unfinished, w1) => (Unfinished, w1)
      end
  end.

Definition unread (ws : ConnId) (w : World) : nat :=
  match conns w !! ws with
  | Some cn => length (pending cn)
  | None => 0
  end.

(** Each round of the loop takes one message off the connection, so one round
    per unread message and one for the read that ends the loop are enough. *)
Definition async_for (ws : ConnId) (body : Message → M unit) : M unit :=
  fun w => aiter (S (unread ws w)) ws body w.

(** [print(line)]. *)
Definition print (line : string) : M unit := fun w => (Ok (), emit line w).

(** [value[key]]. *)
Fixpoint dict_get (items : list (string * JSON)) (key : string) : option JSON :=
  match items with
  | [] => None
  | (k, v) :: rest => if String.eqb k key then Some v else dict_get rest key
  end.

Definition getitem (value : JSON) (key : string) : Exn + JSON :=
  match value with
  | JDict items =>
      match dict_get items key with
      | Some v => inr v
      | None => inl (KeyError key)
      end
  | _ => inl TypeError
  end.

(** ** An interpreter for the examples

    The payloads of the examples are short stand-ins for JSON texts (a string
    literal here holds no quote character): [{1}] and [{2}] for two scores
    with their three fields, [{}] for an object without fields, [[]] for a
    list.  [sample_loads] decodes these and fails on everything else, as
    [json.loads] fails on what is not JSON. *)

Definition sample_loads (event : Message) : option JSON :=
  match event with
  | Bytes "{1}" | Str "{1}" =>
      Some (JDict [("user_id", JInt "2"); ("pp", JFloat "727.0"); ("beatmap_id", JInt "1")])
  | Bytes "{2}" | Str "{2}" =>
      Some (JDict [("user_id", JInt "3"); ("pp", JFloat "100.5"); ("beatmap_id", JInt "2")])
  | Bytes "{}" | Str "{}" => Some (JDict [])
  | Bytes "[]" | Str "[]" => Some (JList [])
  | _ => None
  end.

Definition sample_format (v : JSON) : string :=
  match v with
  | JInt lit | JFloat lit => lit
  | JStr s => s
  | JNone => "None"
  | JBool true => "True"
  | JBool false => "False"
  | JList _ => "[...]"
  | JDict _ => "{...}"
  end.

(** The scenario of the spec: two events arrive while the script listens, the
    server answers the notice with a checkpoint, and the second connection
    delivers one more event before the server closes it. *)
Definition demo_env : Env :=
  mkEnv [Some (mkScript [Bytes "{1}"; Bytes "{2}"; Str "abc123"; Bytes "{x}"] StayOpen 0);
         Some (mkScript [Bytes "{2}"] CloseOK 5)] 2.

(** A server that goes away: one event arrives while the script listens, and
    the connection is lost before the notice is answered. *)
Definition lossy_env : Env :=
  mkEnv [Some (mkScript [Bytes "{1}"] CloseError 5)] 1.

(** A world with one subscribed connection on which the server still sends
    [events] and then ends as [e] says. *)
Definition demo_world (events : list Message) (e : Ending) (d : Delivery) : World :=
  mkWorld [mkConn [Str "connect"] [] events e 3 false] [] [] 0 d 0 []
          [OConnect 0; OSend 0 (Str "connect")].

Section Client.

(** Python's [json.loads] ([None] when it raises) and the [str()] of a value
    as an f-string renders it: both are the interpreter's, not the script's. *)
Variable json_loads : Message → option JSON.
Variable format : JSON → string.

Definition loads (event : Message) : Exn + JSON :=
  match json_loads event with
  | Some v => inr v
  | None => inl ValueError
  end.

(** ** The script *)

(** Lines 44-45: the body of the loop. *)
Definition show_score (event : Message) : M unit :=
  score <- lift (loads event) ;;
  user_id <- lift (getitem score "user_id") ;;
  pp <- lift (getitem score "pp") ;;
  beatmap_id <- lift (getitem score "beatmap_id") ;;
  print (format user_id +:+ " got " +:+ format pp +:+ "pp on " +:+ format beatmap_id).

(** Lines 40-47. *)
Definition process_scores (websocket : ConnId) : M unit :=
  try_except
    (async_for websocket show_score)
    (fun e => match e with
              | CancelledError => Some (raise e)
              | _ => None
              end).

(** ** The event loop: [asyncio] *)

Definition start (co : Coroutine) : M unit :=
  match co with
  | ProcessScores websocket => process_scores websocket
  end.

(** The loop gives task [h] the processor.  [process_scores] keeps nothing
    between two rounds of its loop and does nothing before its first [recv],
    so resuming it at its [await] is running it from the top. *)
Definition run_task (h : TaskId) (d : Delivery) (w : World) : World :=
  match tasks w !! h with
  | Some (Pending co must_cancel) =>
      let (r, w1) := start co (set_mode (if must_cancel then Throw else d) w) in
      set_mode Forever
        (set_task h (match r with
                     | Blocked => Pending co false
                     | _ => Done r
                     end) w1)
  | _ => w
  end.

(** [asyncio.create_task(co)]. *)
Definition create_task (co : Coroutine) : M TaskId := fun w =>
  (Ok (length (tasks w)), set_tasks (fun l => l ++ [Pending co false]) w).

(** [asyncio.sleep(seconds)]: the caller is suspended and the tasks run. *)
Definition sleep (seconds : nat) : M unit := fun w =>
  let w1 := log (OSleep seconds) (tick seconds w) in
  (Ok (),
   foldl (fun w' h => run_task h (Within (window w')) w') w1
         (seq 0 (length (tasks w1)))).

(** [task.cancel()]. *)
Definition cancel (h : TaskId) : M unit := fun w =>
  match tasks w !! h with
  | Some (Pending co _) => (Ok (), set_task h (Pending co true) w)
  | _ => (Ok (), w)
  end.

(** [await task]. *)
Definition await (h : TaskId) : M unit := fun w =>
  let w1 := run_task h Forever w in
  match tasks w1 !! h with
  | Some (Done r) => (r, w1)
  | _ => (Blocked, w1)
  end.

(** Lines 7-38. *)
Definition run : M unit :=
  async_with (connect "ws://127.0.0.1:7727") (fun websocket =>
    send websocket (Str "connect") ;;
    listening <- create_task (ProcessScores websocket) ;;
    sleep 10 ;;
    cancel listening ;;
    try_except (await listening)
      (fun e => match e with
                | CancelledError => Some (ret ())
                | _ => None
                end) ;;
    send websocket (Str "disconnect") ;;
    score_id <- recv websocket ;;
    close websocket ;;
    sleep 10 ;;
    async_with (connect "ws://127.0.0.1:7727") (fun websocket =>
      send websocket score_id ;;
      process_scores websocket)).

(** ** The phases of [run] *)

(** Lines 15-21: consume in a task for ten seconds, then cancel the task and
    wait until it is gone. *)
Definition listen (websocket : ConnId) : M unit :=
  listening <- create_task (ProcessScores websocket) ;;
  sleep 10 ;;
  cancel listening ;;
  try_except (await listening)
    (fun e => match e with
              | CancelledError => Some (ret ())
              | _ => None
              end).

(** Lines 25-29: the graceful suspension; its value is [score_id]. *)
Definition suspend (websocket : ConnId) : M Message :=
  send websocket (Str "disconnect") ;;
  score_id <- recv websocket ;;
  close websocket ;;
  ret score_id.

(** Lines 9-12 and 34-37: open the transport and send the intent. *)
Definition negotiate {A} (intent : Message) (session : ConnId → M A) : M A :=
  async_with (connect "ws://127.0.0.1:7727") (fun websocket =>
    send websocket intent ;;
    session websocket).

(** [run], phase by phase. *)
Definition run_phases : M unit :=
  negotiate (Str "connect") (fun websocket =>
    listen websocket ;;
    score_id <- suspend websocket ;;
    sleep 10 ;;
    negotiate score_id process_scores).

(** ** What the consumption loop does, in closed form *)

(** The pure part of the loop body: the line it prints, or what it raises. *)
Definition render (event : Message) : Exn + string :=
  match loads event with
  | inl e => inl e
  | inr score =>
      match getitem score "user_id" with
      | inl e => inl e
      | inr user_id =>
          match getitem score "pp" with
          | inl e => inl e
          | inr pp =>
              match getitem score "beatmap_id" with
              | inl e => inl e
              | inr beatmap_id =>
                  inr (format user_id +:+ " got " +:+ format pp +:+ "pp on "
                       +:+ format beatmap_id)
              end
          end
      end
  end.

Record Outcome := mkOutcome {
  taken : nat;            (* messages the loop took off the connection *)
  result : Res unit;      (* how the loop ended *)
  saw_close : bool;       (* it found the connection closed by the peer *)
  left : Delivery;        (* the delivery mode it leaves behind *)
  lines : list string     (* what it printed *)
}.

(** The loop on an open connection whose peer still sends [events] and then
    ends as [e] says. *)
Fixpoint drain (d : Delivery) (e : Ending) (events : list Message) : Outcome :=
  match d with
  | Throw => mkOutcome 0 (Raise CancelledError) false Forever []
  | Within 0 => mkOutcome 0 Blocked false d []
  | _ =>
      match events with
      | [] =>
          match e with
          | StayOpen => mkOutcome 0 Blocked false d []
          | CloseOK => mkOutcome 0 (Ok ()) true d []
          | CloseError => mkOutcome 0 (Raise ConnectionClosedError) true d []
          end
      | event :: rest =>
          match render event with
          | inl x => mkOutcome 1 (Raise x) false (spend d) []
          | inr line =>
              let o := drain (spend d) e rest in
              mkOutcome (S (taken o)) (result o) (saw_close o) (left o)
                        (line :: lines o)
          end
      end
  end.

Definition outcome (d : Delivery) (cn : Conn) : Outcome :=
  match d with
  | Throw => mkOutcome 0 (Raise CancelledError) false Forever []
  | _ =>
      if closed cn then
        mkOutcome 0 (match ending cn with
                     | CloseError => Raise ConnectionClosedError
                     | _ => Ok ()
                     end) false d []
      else drain d (ending cn) (pending cn)
  end.

(** The connection and the world once the loop has ended as [o] says. *)
Definition consumed (o : Outcome) (cn : Conn) : Conn :=
  mkConn (sent cn) (received cn ++ take (taken o) (pending cn))
         (drop (taken o) (pending cn)) (ending cn) (accepts cn)
         (closed cn || saw_close o).

Definition settle (o : Outcome) (ws : ConnId) (cn : Conn) (w : World) : World :=
  mkWorld (<[ws := consumed o cn]> (conns w)) (tasks w) (future w) (window w)
          (left o) (clock w) (stdout w ++ lines o)
          (trace w ++ (ORecv ws <$> take (taken o) (pending cn))).

(** ** The executions of [run], case by case *)

Definition disconnect : Message := Str "disconnect".

(** The first connection once the intent is out, and the operations of the
    script up to the end of the listening when the loop took [got]. *)
Definition subscribed (s : Script) : Conn := wrote (Str "connect") (open_conn s).

Definition listened (got : list Message) (after : list Op) : list Op :=
  [OConnect 0; OSend 0 (Str "connect"); OSleep 10] ++ (ORecv 0 <$> got) ++ after.

(** The first connection after a graceful suspension that was answered by
    [tok], and the operations of the script up to that point. *)
Definition suspended (tok : Message) (rest : list Message) (cn : Conn) : Conn :=
  mark_closed (took tok rest (wrote disconnect cn)).

Definition parted (tok : Message) (after : list Op) : list Op :=
  [OSend 0 disconnect; ORecv 0 tok; OClose 0; OSleep 10] ++ after.

(** The operations on the second connection when the loop took [got]. *)
Definition resumed (tok : Message) (got : list Message) (after : list Op) : list Op :=
  [OConnect 1; OSend 1 tok] ++ (ORecv 1 <$> got) ++ after.

Definition cancelled : list Task := [Done (Raise CancelledError)].

(** [Path e r w]: in environment [e] the script ends as [r] in world [w].
    One constructor for each way an execution can go. *)
Inductive Path : Env → Res unit → World → Prop :=
| refused fut k :
    hd None fut = None →
    Path (mkEnv fut k) (Raise OSError)
         (mkWorld [] [] (tl fut) k Forever 0 [] [])
| intent_lost s1 fut1 k :
    writable (open_conn s1) = false →
    Path (mkEnv (Some s1 :: fut1) k) (Raise (closed_exn (s_ending s1)))
         (mkWorld [mark_closed (open_conn s1)] [] fut1 k Forever 0 []
                  [OConnect 0; OClose 0])
| stream_closed s1 fut1 k o :
    writable (open_conn s1) = true →
    o = drain (Within k) (s_ending s1) (s_inbound s1) →
    result o = Ok () →
    Path (mkEnv (Some s1 :: fut1) k) (Raise ConnectionClosedOK)
         (mkWorld [mark_closed (consumed o (subscribed s1))] [Done (Ok ())]
                  fut1 k Forever 10 (lines o)
                  (listened (take (taken o) (s_inbound s1)) [OClose 0]))
| consumer_failed s1 fut1 k o x :
    writable (open_conn s1) = true →
    o = drain (Within k) (s_ending s1) (s_inbound s1) →
    result o = Raise x →
    Path (mkEnv (Some s1 :: fut1) k) (Raise x)
         (mkWorld [mark_closed (consumed o (subscribed s1))] [Done (Raise x)]
                  fut1 k Forever 10 (lines o)
                  (listened (take (taken o) (s_inbound s1)) [OClose 0]))
| suspend_unsent s1 fut1 k o :
    writable (open_conn s1) = true →
    o = drain (Within k) (s_ending s1) (s_inbound s1) →
    result o = Blocked →
    writable (consumed o (subscribed s1)) = false →
    Path (mkEnv (Some s1 :: fut1) k) (Raise (closed_exn (s_ending s1)))
         (mkWorld [mark_closed (consumed o (subscribed s1))] cancelled
                  fut1 k Forever 10 (lines o)
                  (listened (take (taken o) (s_inbound s1)) [OClose 0]))
| suspend_unanswered s1 fut1 k o :
    writable (open_conn s1) = true →
    o = drain (Within k) (s_ending s1) (s_inbound s1) →
    result o = Blocked →
    writable (consumed o (subscribed s1)) = true →
    drop (taken o) (s_inbound s1) = [] →
    s_ending s1 = StayOpen →
    Path (mkEnv (Some s1 :: fut1) k) Blocked
         (mkWorld [wrote disconnect (consumed o (subscribed s1))] cancelled
                  fut1 k Forever 10 (lines o)
                  (listened (take (taken o) (s_inbound s1)) [OSend 0 disconnect]))
| suspend_lost s1 fut1 k o :
    writable (open_conn s1) = true →
    o = drain (Within k) (s_ending s1) (s_inbound s1) →
    result o = Blocked →
    writable (consumed o (subscribed s1)) = true →
    drop (taken o) (s_inbound s1) = [] →
    s_ending s1 ≠ StayOpen →
    Path (mkEnv (Some s1 :: fut1) k) (Raise (closed_exn (s_ending s1)))
         (mkWorld [mark_closed (wrote disconnect (consumed o (subscribed s1)))]
                  cancelled fut1 k Forever 10 (lines o)
                  (listened (take (taken o) (s_inbound s1))
                            [OSend 0 disconnect; OClose 0]))
| resume_refused s1 fut1 k o tok rest :
    writable (open_conn s1) = true →
    o = drain (Within k) (s_ending s1) (s_inbound s1) →
    result o = Blocked →
    writable (consumed o (subscribed s1)) = true →
    drop (taken o) (s_inbound s1) = tok :: rest →
    hd None fut1 = None →
    Path (mkEnv (Some s1 :: fut1) k) (Raise OSError)
         (mkWorld [suspended tok rest (consumed o (subscribed s1))] cancelled
                  (tl fut1) k Forever 20 (lines o)
                  (listened (take (taken o) (s_inbound s1))
                            (parted tok [OClose 0])))
| resume_intent_lost s1 s2 fut2 k o tok rest :
    writable (open_conn s1) = true →
    o = drain (Within k) (s_ending s1) (s_inbound s1) →
    result o = Blocked →
    writable (consumed o (subscribed s1)) = true →
    drop (taken o) (s_inbound s1) = tok :: rest →
    writable (open_conn s2) = false →
    Path (mkEnv (Some s1 :: Some s2 :: fut2) k) (Raise (closed_exn (s_ending s2)))
         (mkWorld [suspended tok rest (consumed o (subscribed s1));
                   mark_closed (open_conn s2)] cancelled
                  fut2 k Forever 20 (lines o)
                  (listened (take (taken o) (s_inbound s1))
                            (parted tok [OConnect 1; OClose 1; OClose 0])))
| resume_waiting s1 s2 fut2 k o tok rest o2 :
    writable (open_conn s1) = true →
    o = drain (Within k) (s_ending s1) (s_inbound s1) →
    result o = Blocked →
    writable (consumed o (subscribed s1)) = true →
    drop (taken o) (s_inbound s1) = tok :: rest →
    writable (open_conn s2) = true →
    o2 = drain Forever (s_ending s2) (s_inbound s2) →
    result o2 = Blocked →
    Path (mkEnv (Some s1 :: Some s2 :: fut2) k) Blocked
         (mkWorld [suspended tok rest (consumed o (subscribed s1));
                   consumed o2 (wrote tok (open_conn s2))] cancelled
                  fut2 k Forever 20 (lines o ++ lines o2)
                  (listened (take (taken o) (s_inbound s1))
                     (parted tok
                        (resumed tok (take (taken o2) (s_inbound s2)) []))))
| resume_ended s1 s2 fut2 k o tok rest o2 :
    writable (open_conn s1) = true →
    o = drain (Within k) (s_ending s1) (s_inbound s1) →
    result o = Blocked →
    writable (consumed o (subscribed s1)) = true →
    drop (taken o) (s_inbound s1) = tok :: rest →
    writable (open_conn s2) = true →
    o2 = drain Forever (s_ending s2) (s_inbound s2) →
    result o2 ≠ Blocked →
    Path (mkEnv (Some s1 :: Some s2 :: fut2) k) (result o2)
         (mkWorld [suspended tok rest (consumed o (subscribed s1));
                   mark_closed (consumed o2 (wrote tok (open_conn s2)))] cancelled
                  fut2 k Forever 20 (lines o ++ lines o2)
                  (listened (take (taken o) (s_inbound s1))
                     (parted tok
                        (resumed tok (take (taken o2) (s_inbound s2))
                                 [OClose 1; OClose 0])))).

(** ** Vocabulary of the statements *)

(** An event the loop body can process: it decodes, and the decoded value has
    the three fields. *)
Definition has_field (v : JSON) (key : string) : Prop :=
  ∃ x, getitem v key = inr x.

Definition well_formed (event : Message) : Prop :=
  ∃ v, json_loads event = Some v ∧
       has_field v "user_id" ∧ has_field v "pp" ∧ has_field v "beatmap_id".

(** An event that is not valid JSON, or lacks one of the fields. *)
Definition malformed (event : Message) : Prop :=
  json_loads event = None ∨
  ∃ v key, json_loads event = Some v ∧
           key ∈ ["user_id"; "pp"; "beatmap_id"] ∧ ¬ has_field v key.

(** [printed] holds the line of each of [events], in order. *)
Definition rendered (events : list Message) (printed : list string) : Prop :=
  Forall2 (fun event line => render event = inr line) events printed.

(** Whether the delivery mode lets [n] more messages through. *)
Definition lets_through (d : Delivery) (n : nat) : Prop :=
  match d with
  | Forever => True
  | Within k => n ≤ k
  | Throw => False
  end.

(** The seconds the script sleeps in the course of [ops]. *)
Definition elapsed (ops : list Op) : nat :=
  foldr (fun o t => match o with OSleep n => n + t | _ => t end) 0 ops.

(** The grace window of the server, in seconds (line 10). *)
Definition grace_window : nat := 5.




(** ** The entry point *)

(** What [asyncio.run] does with the tasks that are left when the main
    coroutine is through: all of them are cancelled, then run until they are
    gone. *)
Definition cancel_all (w : World) : World :=
  let hs := seq 0 (length (tasks w)) in
  foldl (fun w' h => run_task h Forever w')
        (foldl (fun w' h => snd (cancel h w')) w hs) hs.

(** [asyncio.run(main)]: it returns what the main coroutine returns and
    raises what it raises, after the clean-up; while the main coroutine
    waits, it does not return. *)
Definition asyncio_run (main : M unit) : M unit := fun w =>
  match main w with
  | (Ok a, w1) => (Ok a, cancel_all w1)
  | (Raise e, w1) => (Raise e, cancel_all w1)
  | other => other
  end.

(** Lines 49-50. *)
Definition main : M unit := asyncio_run run.

(** ** More vocabulary *)

(** A task that is still to be run. *)
Definition is_pending (t : Task) : Prop := ∃ co c, t = Pending co c.

(** What the server sends on the connection of the [i]-th attempt. *)
Definition inbound_of (e : Env) (i : nat) : list Message :=
  match e_future e !! i with
  | Some (Some s) => s_inbound s
  | _ => []
  end.

(** The exceptions of a body that fails on an event. *)
Definition decoding_error (x : Exn) : Prop :=
  x = ValueError ∨ x = TypeError ∨
  ∃ key, key ∈ ["user_id"; "pp"; "beatmap_id"] ∧ x = KeyError key.

(** How the loop ends on a stream it reads to its end. *)
Definition stream_end (e : Ending) : Res unit :=
  match e with
  | StayOpen => Blocked
  | CloseOK => Ok ()
  | CloseError => Raise ConnectionClosedError
  end.

(** ** More scenarios *)

(** A server that closes the first stream normally while the script still
    listens. *)
Definition closing_env : Env :=
  mkEnv [Some (mkScript [Bytes "{1}"] CloseOK 5)] 3.

(** A server whose second event lacks its fields. *)
Definition faulty_env : Env :=
  mkEnv [Some (mkScript [Bytes "{1}"; Bytes "{}"; Bytes "{2}"] StayOpen 0)] 2.

(** A server that does not accept the connection. *)
Definition absent_env : Env := mkEnv [None] 2.


(** ** The loop *)

Lemma show_score_render event w :
  show_score event w =
  match render event with
  | inl e => (Raise e, w)
  | inr line => (Ok (), emit line w)
  end.
Proof.
  unfold show_score, render, bind, lift.
  destruct (loads event) as [e|score]; [reflexivity|]; cbn.
  destruct (getitem score "user_id") as [e|u]; [reflexivity|]; cbn.
  destruct (getitem score "pp") as [e|p]; [reflexivity|]; cbn.
  destruct (getitem score "beatmap_id") as [e|b]; reflexivity.
Qed.

Lemma render_not_cancelled event : render event ≠ inl CancelledError.
Proof.
  unfold render, loads, getitem.
  repeat case_match; congruence.
Qed.

Lemma settle_nothing r d ws cn w :
  conns w !! ws = Some cn →
  settle (mkOutcome 0 r false d []) ws cn w = set_mode d w.
Proof.
  intros Hcn. unfold settle, set_mode, consumed; cbn.
  rewrite !app_nil_r, orb_false_r, drop_0.
  f_equal. apply list_insert_id. by destruct cn.
Qed.

Lemma settle_closed r d ws cn w :
  conns w !! ws = Some cn →
  settle (mkOutcome 0 r true d []) ws cn w = set_mode d (set_conn ws (mark_closed cn) w).
Proof.
  intros Hcn. unfold settle, set_mode, set_conn, set_conns, consumed, mark_closed; cbn.
  by rewrite !app_nil_r, orb_true_r, drop_0.
Qed.

Lemma set_mode_same w : set_mode (mode w) w = w.
Proof. by destruct w. Qed.

Lemma aiter_drain ws events :
  ∀ bound w cn,
    conns w !! ws = Some cn → closed cn = false → pending cn = events →
    length events < bound →
    aiter bound ws show_score w =
    (result (drain (mode w) (ending cn) events),
     settle (drain (mode w) (ending cn) events) ws cn w).
Proof.
  induction events as [|event rest IH]; intros bound w cn Hcn Hopen Hpend Hlt;
    (destruct bound as [|bound]; [cbn in Hlt; lia|]); cbn [aiter]; unfold recv;
    rewrite Hcn, Hopen, Hpend.
  - destruct (mode w) as [|[|k]|] eqn:Hmode; cbn [drain];
      try (rewrite settle_nothing by done; rewrite <- Hmode, set_mode_same;
           reflexivity);
      try (rewrite settle_nothing by done; reflexivity).
    + destruct (ending cn) eqn:He; cbn;
        rewrite ?settle_nothing, ?settle_closed by done;
        rewrite <- ?Hmode, ?set_mode_same; reflexivity.
    + destruct (ending cn) eqn:He; cbn;
        rewrite ?settle_nothing, ?settle_closed by done;
        rewrite <- ?Hmode, ?set_mode_same; reflexivity.
  - assert (Hws : ws < length (conns w)) by (eapply lookup_lt_Some; eauto).
    destruct (mode w) as [|[|k]|] eqn:Hmode; cbn [drain spend Nat.pred];
      try (rewrite settle_nothing by done; rewrite <- ?Hmode, ?set_mode_same;
           reflexivity).
    all: rewrite show_score_render; destruct (render event) as [x|line] eqn:Hr.
    all: try (cbn; f_equal;
              unfold settle, consumed, took, log, set_mode, set_conn, set_conns;
              cbn; rewrite Hpend, Hopen; cbn;
              rewrite ?take_0, ?drop_0, ?app_nil_r; reflexivity).
    all: erewrite (IH bound _
                     (took event rest cn));
      [ | cbn; by apply list_lookup_insert_eq | cbn; done | done
        | cbn in Hlt; lia ].
    all: cbn; f_equal; unfold settle, consumed, took; cbn; rewrite Hpend, Hopen; cbn;
      rewrite list_insert_insert_eq, <- !app_assoc; reflexivity.
Qed.

Lemma reraise_same {A} (body : M A) w :
  try_except body
    (fun e => match e with
              | CancelledError => Some (raise e)
              | _ => None
              end) w = body w.
Proof.
  unfold try_except. destruct (body w) as [[a|e| |] w1]; try reflexivity.
  destruct e; reflexivity.
Qed.

(** [process_scores] on a connection of the world, in closed form. *)
Lemma process_scores_outcome ws w cn :
  conns w !! ws = Some cn →
  process_scores ws w =
  (result (outcome (mode w) cn), settle (outcome (mode w) cn) ws cn w).
Proof.
  intros Hcn. unfold process_scores. rewrite reraise_same.
  unfold async_for, outcome.
  destruct (closed cn) eqn:Hclosed.
  - cbn [aiter]. unfold recv. rewrite Hcn, Hclosed.
    destruct (mode w) eqn:Hmode; rewrite settle_nothing by done;
      rewrite <- ?Hmode, ?set_mode_same; try reflexivity;
      destruct (ending cn); reflexivity.
  - destruct (mode w) eqn:Hmode.
    1,2: erewrite aiter_drain; eauto; [by rewrite Hmode|];
      unfold unread; rewrite Hcn; lia.
    cbn [aiter]. unfold recv. rewrite Hmode.
    by rewrite settle_nothing.
Qed.

(** On a handle that names no connection the first [recv] raises. *)
Lemma process_scores_stray ws w :
  conns w !! ws = None →
  process_scores ws w =
  match mode w with
  | Throw => (Raise CancelledError, set_mode Forever w)
  | _ => (Raise ConnectionClosedError, w)
  end.
Proof.
  intros Hcn. unfold process_scores. rewrite reraise_same.
  unfold async_for. cbn [aiter]. unfold recv. rewrite Hcn.
  destruct (mode w); reflexivity.
Qed.

(** ** Facts about the closed form *)

Lemma drain_taken_le d e events : taken (drain d e events) ≤ length events.
Proof.
  revert d. induction events as [|event rest IH]; intros d.
  - destruct d as [|[|k]|]; cbn; try lia; destruct e; cbn; lia.
  - destruct d as [|[|k]|]; cbn; try lia;
      destruct (render event); cbn; try lia.
    + specialize (IH Forever). lia.
    + specialize (IH (Within k)). lia.
Qed.

Lemma drain_finished d e events : result (drain d e events) ≠ Unfinished.
Proof.
  revert d. induction events as [|event rest IH]; intros d.
  - destruct d as [|[|k]|]; cbn; try done; destruct e; done.
  - destruct d as [|[|k]|]; cbn; try done;
      destruct (render event); cbn; try done; apply IH.
Qed.

Lemma drain_cancelled d e events :
  result (drain d e events) = Raise CancelledError → d = Throw.
Proof.
  revert d. induction events as [|event rest IH]; intros d.
  - destruct d as [|[|k]|]; cbn; try done; destruct e; done.
  - destruct d as [|[|k]|]; cbn; try done;
      destruct (render event) as [x|line] eqn:Hr; cbn; try done.
    + intros [= ->]. by apply render_not_cancelled in Hr.
    + intros H. by apply IH in H.
    + intros [= ->]. by apply render_not_cancelled in Hr.
    + intros H. by apply IH in H.
Qed.

Lemma drain_blocked d e events :
  result (drain d e events) = Blocked → saw_close (drain d e events) = false.
Proof.
  revert d. induction events as [|event rest IH]; intros d.
  - destruct d as [|[|k]|]; cbn; try done; destruct e; done.
  - destruct d as [|[|k]|]; cbn; try done;
      destruct (render event); cbn; try done; apply IH.
Qed.

Lemma drain_raise d e events x :
  result (drain d e events) = Raise x → x ≠ ConnectionClosedError →
  saw_close (drain d e events) = false.
Proof.
  revert d. induction events as [|event rest IH]; intros d.
  - destruct d as [|[|k]|]; cbn; try done; destruct e; cbn; congruence.
  - destruct d as [|[|k]|]; cbn; try done;
      destruct (render event); cbn; try done; apply IH.
Qed.

Lemma drain_returned d e events :
  result (drain d e events) = Ok () →
  e = CloseOK ∧ saw_close (drain d e events) = true ∧
  taken (drain d e events) = length events.
Proof.
  revert d. induction events as [|event rest IH]; intros d.
  - destruct d as [|[|k]|]; cbn; try done; destruct e; done.
  - destruct d as [|[|k]|]; cbn; try done;
      destruct (render event); cbn; try done; intros H;
      apply IH in H as (? & ? & ->); done.
Qed.

(** ** [run] is its phases in sequence *)

Lemma bind_assoc {A B C} (m : M A) (f : A → M B) (g : B → M C) w :
  bind (bind m f) g w = bind m (fun a => bind (f a) g) w.
Proof. unfold bind. destruct (m w) as [[a|e| |] w1]; reflexivity. Qed.

Lemma bind_ret {A} (m : M A) w : bind m ret w = m w.
Proof. unfold bind, ret. destruct (m w) as [[a|e| |] w1]; reflexivity. Qed.

Lemma bind_ext {A B} (m : M A) (k1 k2 : A → M B) w :
  (∀ a w1, k1 a w1 = k2 a w1) → bind m k1 w = bind m k2 w.
Proof.
  intros Hk. unfold bind. destruct (m w) as [[a|e| |] w1]; auto.
Qed.

Lemma async_with_ext {A} cm (body1 body2 : ConnId → M A) w :
  (∀ ws w1, body1 ws w1 = body2 ws w1) →
  async_with cm body1 w = async_with cm body2 w.
Proof.
  intros Hb. unfold async_with. destruct (cm w) as [[ws|e| |] w1]; auto.
  by rewrite Hb.
Qed.

Ltac next_step := rewrite ?bind_assoc; apply bind_ext; intros ? ?.

Lemma run_run_phases w : run w = run_phases w.
Proof.
  unfold run, run_phases, negotiate.
  apply async_with_ext; intros ws w1.
  next_step. unfold listen, suspend.
  do 7 next_step. reflexivity.
Qed.

(** ** The phases, in closed form *)

Lemma outcome_cancelled d cn :
  result (outcome d cn) = Raise CancelledError → d = Throw.
Proof.
  unfold outcome. destruct d as [|k|]; try done; destruct (closed cn);
    try (by intros ?%drain_cancelled); destruct (ending cn); done.
Qed.

Lemma outcome_throw cn :
  outcome Throw cn = mkOutcome 0 (Raise CancelledError) false Forever [].
Proof. reflexivity. Qed.

Lemma consumed_idle r d ls cn : consumed (mkOutcome 0 r false d ls) cn = cn.
Proof.
  destruct cn; unfold consumed; cbn.
  by rewrite app_nil_r, orb_false_r, ?drop_0.
Qed.

Lemma outcome_finished d cn : result (outcome d cn) ≠ Unfinished.
Proof.
  unfold outcome. destruct d as [|k|]; try done; destruct (closed cn);
    try apply drain_finished; destruct (ending cn); done.
Qed.

#[local] Arguments bind : simpl never.
#[local] Arguments process_scores : simpl never.
#[local] Arguments outcome : simpl never.

Ltac worlds :=
  unfold settle, set_mode, set_task, set_tasks, set_conn, set_conns,
    set_future, log, tick, emit;
  cbn [conns tasks future window mode clock stdout trace].

(** Lines 15-21: the task consumes what arrives within the window; if it is
    still waiting when the sleep is over it is cancelled, and the
    cancellation ends there. *)
Lemma listen_outcome ws w cn :
  tasks w = [] → mode w = Forever → conns w !! ws = Some cn →
  let o := outcome (Within (window w)) cn in
  listen ws w =
  (match result o with
   | Blocked => Ok ()
   | r => r
   end,
   mkWorld (<[ws := consumed o cn]> (conns w))
           [Done (match result o with
                  | Blocked => Raise CancelledError
                  | r => r
                  end)]
           (future w) (window w) Forever (clock w + 10) (stdout w ++ lines o)
           (trace w ++ OSleep 10 :: (ORecv ws <$> take (taken o) (pending cn)))).
Proof.
  destruct w as [cs ts fu k mo cl out tr]; cbn [tasks mode conns window].
  intros -> -> Hcn.
  assert (Hws : ws < length cs) by (eapply lookup_lt_Some; eauto).
  pose proof (outcome_cancelled (Within k) cn) as Hnc.
  pose proof (outcome_finished (Within k) cn) as Hfin.
  unfold listen. unfold bind at 1, create_task. worlds. cbn [length app].
  unfold bind at 1, sleep. worlds. cbn [length seq foldl].
  unfold run_task at 1. worlds. cbn [lookup list_lookup start].
  erewrite process_scores_outcome by exact Hcn.
  worlds.
  destruct (result (outcome (Within k) cn)) as [[]|x| |] eqn:Hres; try done;
    unfold bind at 1, cancel; worlds; cbn [lookup list_lookup insert list_insert].
  - unfold try_except, await, run_task; worlds;
      cbn [lookup list_lookup insert list_insert].
    by rewrite <- app_assoc.
  - unfold try_except, await, run_task; worlds;
      cbn [lookup list_lookup insert list_insert].
    destruct x; try (by rewrite <- app_assoc).
    by specialize (Hnc eq_refl).
  - unfold try_except, await, run_task; worlds;
      cbn [lookup list_lookup insert list_insert start].
    erewrite process_scores_outcome
      by (by apply list_lookup_insert_eq).
    rewrite !outcome_throw. worlds.
    cbn [lookup list_lookup insert list_insert result taken lines left ret].
    rewrite consumed_idle, list_insert_insert_eq, take_0, !app_nil_r, <- app_assoc.
    reflexivity.
Qed.


(** Lines 25-29. *)
Lemma suspend_outcome ws w cn :
  mode w = Forever → conns w !! ws = Some cn →
  suspend ws w =
  if writable cn then
    match pending cn with
    | tok :: rest =>
        (Ok tok,
         mkWorld (<[ws := suspended tok rest cn]> (conns w))
                 (tasks w) (future w) (window w) Forever (clock w) (stdout w)
                 (trace w ++ [OSend ws disconnect; ORecv ws tok; OClose ws]))
    | [] =>
        match ending cn with
        | StayOpen =>
            (Blocked,
             mkWorld (<[ws := wrote disconnect cn]> (conns w))
                     (tasks w) (future w) (window w) Forever (clock w) (stdout w)
                     (trace w ++ [OSend ws disconnect]))
        | e =>
            (Raise (closed_exn e),
             mkWorld (<[ws := mark_closed (wrote disconnect cn)]> (conns w))
                     (tasks w) (future w) (window w) Forever (clock w) (stdout w)
                     (trace w ++ [OSend ws disconnect]))
        end
    end
  else
    (Raise (closed_exn (ending cn)),
     mkWorld (<[ws := mark_closed cn]> (conns w))
             (tasks w) (future w) (window w) Forever (clock w) (stdout w)
             (trace w)).
Proof.
  destruct w as [cs ts fu k mo cl out tr]; cbn [tasks mode conns window].
  intros -> Hcn.
  assert (Hws : ws < length cs) by (eapply lookup_lt_Some; eauto).
  unfold suspend. unfold bind at 1, send; worlds. rewrite Hcn.
  destruct (writable cn) eqn:Hw; [|reflexivity].
  assert (Hopen : closed cn = false).
  { unfold writable in Hw. by destruct (closed cn). }
  unfold bind at 1, recv; worlds.
  rewrite list_lookup_insert_eq by done.
  cbn [closed wrote pending ending spend]. rewrite Hopen.
  destruct (pending cn) as [|tok rest] eqn:Hp.
  - destruct (ending cn) eqn:He; worlds; rewrite ?list_insert_insert_eq;
      reflexivity.
  - unfold bind at 1, close; worlds.
    rewrite list_lookup_insert_eq by (by rewrite length_insert).
    unfold bind, ret; worlds.
    rewrite !list_insert_insert_eq, <- !app_assoc. unfold suspended, took.
    cbn [sent received pending ending accepts closed wrote].
    reflexivity.
Qed.

(** [asyncio.sleep] when no task is left to run. *)
Lemma sleep_idle n w r :
  tasks w = [Done r] → sleep n w = (Ok (), log (OSleep n) (tick n w)).
Proof.
  destruct w as [cs ts fu k mo cl out tr]; cbn [tasks]. intros ->.
  reflexivity.
Qed.

Lemma close_outcome ws w cn :
  conns w !! ws = Some cn →
  close ws w =
  (Ok (), mkWorld (<[ws := mark_closed cn]> (conns w)) (tasks w) (future w)
                  (window w) (mode w) (clock w) (stdout w)
                  (trace w ++ [OClose ws])).
Proof. intros Hcn. unfold close. by rewrite Hcn. Qed.

(** Lines 9-12 and 34-37. *)
Lemma negotiate_outcome {A} intent (session : ConnId → M A) w :
  negotiate intent session w =
  match future w with
  | Some s :: rest =>
      if writable (open_conn s) then
        aexit (length (conns w))
          (session (length (conns w))
             (mkWorld (conns w ++ [wrote intent (open_conn s)]) (tasks w) rest
                      (window w) (mode w) (clock w) (stdout w)
                      (trace w ++ [OConnect (length (conns w));
                                   OSend (length (conns w)) intent])))
      else
        (Raise (closed_exn (s_ending s)),
         mkWorld (conns w ++ [mark_closed (open_conn s)]) (tasks w) rest
                 (window w) (mode w) (clock w) (stdout w)
                 (trace w ++ [OConnect (length (conns w));
                              OClose (length (conns w))]))
  | _ => (Raise OSError, set_future (tl (future w)) w)
  end.
Proof.
  destruct w as [cs ts fu k mo cl out tr]. unfold negotiate, async_with, connect.
  cbn [future conns].
  destruct fu as [|[s|] rest]; try reflexivity.
  worlds. unfold bind at 1, send. worlds.
  rewrite lookup_app_r, Nat.sub_diag by done. cbn [lookup list_lookup].
  destruct (writable (open_conn s)) eqn:Hw.
  - worlds. rewrite insert_app_r_alt, Nat.sub_diag, <- app_assoc by done.
    reflexivity.
  - unfold aexit, close. worlds.
    rewrite insert_app_r_alt, Nat.sub_diag by done.
    cbn [insert list_insert].
    rewrite lookup_app_r, Nat.sub_diag by done. cbn [lookup list_lookup snd].
    worlds.
    rewrite insert_app_r_alt, Nat.sub_diag, <- app_assoc by done.
    reflexivity.
Qed.

Lemma bind_eval {A B} (m : M A) (k : A → M B) w r w1 :
  m w = (r, w1) →
  bind m k w =
  match r with
  | Ok a => k a w1
  | Raise e => (Raise e, w1)
  | Blocked => (Blocked, w1)
  | Unfinished => (Unfinished, w1)
  end.
Proof. intros H. unfold bind. by rewrite H. Qed.

Lemma outcome_open d cn :
  closed cn = false → outcome d cn = drain d (ending cn) (pending cn).
Proof.
  unfold outcome. intros ->.
  destruct d as [|[|k]|], (pending cn); reflexivity.
Qed.

Lemma drain_forever_left e events : left (drain Forever e events) = Forever.
Proof.
  induction events as [|event rest IH]; cbn.
  - by destruct e.
  - by destruct (render event).
Qed.

Lemma writable_open cn : writable cn = true → closed cn = false.
Proof. unfold writable. by destruct (closed cn). Qed.

Ltac fields :=
  cbn [conns tasks future window mode clock stdout trace length app tl
       e_future e_window
       lookup list_lookup insert list_insert
       sent received pending ending accepts closed
       s_inbound s_ending s_accepts
       taken result saw_close left lines fst snd] in *.

Ltac arrive path :=
  match goal with
  | H : _ = (_, _) |- _ =>
      fields; injection H as <- <-; fields; rewrite <- ?app_assoc; fields;
      eapply path; eauto
  end.

(** Every execution of [run] from a fresh world follows one of the paths. *)
Lemma run_paths e r w : run (boot e) = (r, w) → Path e r w.
Proof.
  rewrite run_run_phases. destruct e as [fut k]. unfold run_phases, boot.
  rewrite negotiate_outcome. fields. intros H.
  destruct fut as [|[s1|] fut1]; [by arrive refused| |by arrive refused].
  destruct (writable (open_conn s1)) eqn:Hw1; [|by arrive intent_lost].
  pose proof (writable_open _ Hw1) as Hopen1.
  fold (subscribed s1) in H.
  erewrite bind_eval in H by (apply listen_outcome; reflexivity).
  fields. rewrite outcome_open in H by done.
  change (ending (subscribed s1)) with (s_ending s1) in H.
  change (pending (subscribed s1)) with (s_inbound s1) in H.
  remember (drain (Within k) (s_ending s1) (s_inbound s1)) as o eqn:Ho.
  destruct (result o) as [[]|x| |] eqn:Hres.
  4:{ exfalso. eapply drain_finished. rewrite <- Ho. exact Hres. }
  2:{ unfold aexit in H. erewrite close_outcome in H by reflexivity.
      by arrive consumer_failed. }
  - (* the peer closed while the task was listening *)
    unfold bind at 1 in H; erewrite suspend_outcome in H by reflexivity.
    assert (Hsaw : saw_close o = true).
    { rewrite Ho in Hres |- *. by apply drain_returned in Hres as (_ & ? & _). }
    assert (He : s_ending s1 = CloseOK).
    { rewrite Ho in Hres. by apply drain_returned in Hres as (? & _ & _). }
    replace (writable (consumed o (subscribed s1))) with false in H
      by (unfold writable, consumed; fields; by rewrite Hsaw).
    unfold aexit in H. erewrite close_outcome in H by reflexivity.
    change (ending (consumed o (subscribed s1))) with (s_ending s1) in H.
    rewrite He in H. by arrive stream_closed.
  - (* the task was cancelled *)
    unfold bind at 1 in H; erewrite suspend_outcome in H by reflexivity.
    change (ending (consumed o (subscribed s1))) with (s_ending s1) in H.
    change (pending (consumed o (subscribed s1)))
      with (drop (taken o) (s_inbound s1)) in H.
    destruct (writable (consumed o (subscribed s1))) eqn:Hw2.
    2:{ unfold aexit in H. erewrite close_outcome in H by reflexivity.
        by arrive suspend_unsent. }
    destruct (drop (taken o) (s_inbound s1)) as [|tok rest] eqn:Hrest.
    + destruct (s_ending s1) eqn:He.
      * unfold aexit in H. arrive suspend_unanswered; by rewrite ?He.
      * unfold aexit in H. erewrite close_outcome in H by reflexivity.
        rewrite <- He in H.
        arrive suspend_lost; by rewrite ?He.
      * unfold aexit in H. erewrite close_outcome in H by reflexivity.
        rewrite <- He in H.
        arrive suspend_lost; by rewrite ?He.
    + erewrite bind_eval in H by (eapply sleep_idle; reflexivity).
      rewrite negotiate_outcome in H. unfold log, tick in H. fields.
      destruct fut1 as [|[s2|] fut2].
      1,3: unfold aexit in H; erewrite close_outcome in H by reflexivity;
        by arrive resume_refused.
      destruct (writable (open_conn s2)) eqn:Hw3.
      2:{ unfold aexit in H. erewrite close_outcome in H by reflexivity.
          by arrive resume_intent_lost. }
      pose proof (writable_open _ Hw3) as Hopen2.
      erewrite process_scores_outcome in H by reflexivity.
      fields. rewrite outcome_open in H by done.
      change (ending (wrote tok (open_conn s2))) with (s_ending s2) in H.
      change (pending (wrote tok (open_conn s2))) with (s_inbound s2) in H.
      remember (drain Forever (s_ending s2) (s_inbound s2)) as o2 eqn:Ho2.
      assert (Hleft : left o2 = Forever) by (rewrite Ho2; apply drain_forever_left).
      unfold settle in H. fields. rewrite Hleft in H.
      destruct (result o2) as [[]|x| |] eqn:Hres2.
      4:{ exfalso. eapply drain_finished. rewrite <- Ho2. exact Hres2. }
      3:{ unfold aexit in H. rewrite <- (app_nil_r (ORecv 1 <$> _)) in H.
          by arrive resume_waiting. }
      all: unfold aexit in H; erewrite !close_outcome in H by reflexivity;
        rewrite <- Hres2 in H at 1; arrive resume_ended; by rewrite Hres2.
Qed.

(** ** More facts about the loop *)

Lemma well_formed_render event :
  well_formed event → ∃ line, render event = inr line.
Proof.
  intros (v & Hv & [u Hu] & [p Hp] & [b Hb]).
  unfold render, loads. rewrite Hv, Hu, Hp, Hb. eauto.
Qed.

Lemma malformed_render event :
  malformed event →
  ∃ x, render event = inl x ∧
       (x = ValueError ∨ x = TypeError ∨ ∃ key, x = KeyError key).
Proof.
  unfold render, loads.
  intros [Hnone|(v & key & Hv & Hkey & Hlack)].
  - rewrite Hnone. eauto.
  - rewrite Hv.
    assert (Hx : ∀ k y, getitem v k = inl y → y = TypeError ∨ ∃ key, y = KeyError key).
    { intros k y. unfold getitem. repeat case_match; intros [= <-]; eauto. }
    destruct (getitem v "user_id") as [y|u] eqn:Hu; [naive_solver|].
    destruct (getitem v "pp") as [y|p] eqn:Hp; [naive_solver|].
    destruct (getitem v "beatmap_id") as [y|b] eqn:Hb; [naive_solver|].
    exfalso. apply Hlack. unfold has_field.
    repeat (apply elem_of_cons in Hkey as [->|Hkey]; [by eauto|]).
    by apply elem_of_nil in Hkey.
Qed.

Lemma drain_lines d e events :
  rendered (take (length (lines (drain d e events))) events)
           (lines (drain d e events)) ∧
  length (lines (drain d e events)) ≤ taken (drain d e events).
Proof.
  unfold rendered. revert d.
  induction events as [|event rest IH]; intros d.
  - destruct d as [|[|k]|]; cbn; try (split; [constructor|lia]);
      destruct e; cbn; split; try constructor; lia.
  - destruct d as [|[|k]|]; cbn; try (split; [constructor|lia]);
      destruct (render event) as [x|line] eqn:Hr; cbn;
      try (split; [constructor|lia]).
    + destruct (IH Forever) as [H1 H2]. split; [by constructor|lia].
    + destruct (IH (Within k)) as [H1 H2]. split; [by constructor|lia].
Qed.

Lemma drain_blocked_lines d e events :
  result (drain d e events) = Blocked →
  length (lines (drain d e events)) = taken (drain d e events).
Proof.
  revert d. induction events as [|event rest IH]; intros d.
  - destruct d as [|[|k]|]; cbn; try done; destruct e; done.
  - destruct d as [|[|k]|]; cbn; try done;
      destruct (render event); cbn; try done; intros H; f_equal; by apply IH.
Qed.

Lemma drain_within k e events : taken (drain (Within k) e events) ≤ k.
Proof.
  revert k. induction events as [|event rest IH]; intros [|k]; cbn; try lia.
  - destruct e; cbn; lia.
  - destruct (render event); cbn; [lia|]. specialize (IH k). lia.
Qed.

(** Nothing cuts the loop short while the events are well-formed and
    cancellation stays away. *)
Lemma drain_through d e good more printed :
  lets_through d (length good) → rendered good printed →
  drain d e (good ++ more) =
  let o := drain (match d with
                  | Within k => Within (k - length good)
                  | other => other
                  end) e more in
  mkOutcome (length good + taken o) (result o) (saw_close o) (left o)
            (printed ++ lines o).
Proof.
  intros Hd Hr. revert d Hd.
  induction Hr as [|event line good printed Hline Hr IH]; intros d Hd.
  - cbn. destruct d; cbn; rewrite ?Nat.sub_0_r; by destruct (drain _ e more).
  - destruct d as [|[|k]|]; cbn in Hd |- *; try done; try lia.
    + rewrite Hline. by rewrite (IH Forever).
    + rewrite Hline. rewrite (IH (Within k)) by (cbn; lia). reflexivity.
Qed.

Lemma well_formed_rendered events :
  Forall well_formed events → ∃ printed, rendered events printed.
Proof.
  induction 1 as [|event events Hwf _ [printed IH]].
  - exists []. constructor.
  - destruct (well_formed_render _ Hwf) as [line Hline].
    exists (line :: printed). by constructor.
Qed.

Lemma take_past {A} (l : list A) x k : take (length l + 1) (l ++ x :: k) = l ++ [x].
Proof. induction l as [|y l IH]; cbn; [by rewrite take_0|by f_equal]. Qed.

Lemma drop_past {A} (l : list A) x k : drop (length l + 1) (l ++ x :: k) = k.
Proof. induction l as [|y l IH]; cbn; [by rewrite drop_0|done]. Qed.

Lemma outcome_lines d cn :
  taken (outcome d cn) ≤ length (pending cn) ∧
  rendered (take (length (lines (outcome d cn))) (pending cn))
           (lines (outcome d cn)) ∧
  length (lines (outcome d cn)) ≤ taken (outcome d cn).
Proof.
  destruct (closed cn) eqn:Hc.
  - unfold outcome. rewrite Hc.
    destruct d; cbn; repeat split; try constructor; lia.
  - rewrite outcome_open by done.
    split; [apply drain_taken_le|apply drain_lines].
Qed.

Lemma drain_all e events :
  Forall well_formed events →
  taken (drain Forever e events) = length events ∧
  length (lines (drain Forever e events)) = length events.
Proof.
  intros [printed Hr]%well_formed_rendered.
  pose proof (drain_through Forever e events [] printed I Hr) as H.
  rewrite app_nil_r in H. rewrite H. cbn.
  assert (length printed = length events) by (symmetry; by eapply Forall2_length).
  destruct e; cbn; rewrite length_app; cbn; lia.
Qed.

(** What [process_scores] leaves of the world, whatever the handle. *)
Lemma process_scores_frame ws w r w' :
  process_scores ws w = (r, w') →
  sent <$> conns w' = sent <$> conns w ∧
  accepts <$> conns w' = accepts <$> conns w ∧
  tasks w' = tasks w ∧ future w' = future w ∧ clock w' = clock w ∧
  ∃ got, trace w' = trace w ++ (ORecv ws <$> got).
Proof.
  destruct (conns w !! ws) as [cn|] eqn:Hcn.
  - rewrite (process_scores_outcome _ _ _ Hcn). intros [= <- <-]. cbn.
    rewrite !list_fmap_insert. cbn.
    repeat split; eauto;
      apply list_insert_id; by rewrite list_lookup_fmap, Hcn.
  - rewrite (process_scores_stray _ _ Hcn).
    destruct (mode w); intros [= <- <-]; cbn; repeat split;
      exists []; by rewrite app_nil_r.
Qed.

(** ** The claims about the consumption loop *)

(** C5. Within one session the loop yields the server's events exactly as
    sent: what [process_scores] takes off a connection is a prefix of what
    the server sent on it, one [recv] per event, in order, nothing skipped
    and nothing twice; each event that got through its body left one line.
    While it is neither cancelled nor closed and the events are well-formed,
    it takes all of them. *)
Theorem events_delivered_in_order ws w cn r w' :
  conns w !! ws = Some cn →
  process_scores ws w = (r, w') →
  ∃ n cn' printed,
    n ≤ length (pending cn) ∧
    conns w' !! ws = Some cn' ∧
    received cn' = received cn ++ take n (pending cn) ∧
    pending cn' = drop n (pending cn) ∧
    trace w' = trace w ++ (ORecv ws <$> take n (pending cn)) ∧
    stdout w' = stdout w ++ printed ∧
    rendered (take (length printed) (pending cn)) printed ∧
    length printed ≤ n ∧
    (mode w = Forever → closed cn = false → Forall well_formed (pending cn) →
     n = length (pending cn) ∧ length printed = n).
Proof.
  intros Hcn. rewrite (process_scores_outcome _ _ _ Hcn). intros [= <- <-].
  destruct (outcome_lines (mode w) cn) as (Hle & Hlines & Hlen).
  exists (taken (outcome (mode w) cn)), (consumed (outcome (mode w) cn) cn),
    (lines (outcome (mode w) cn)).
  repeat split; try done.
  - cbn. apply list_lookup_insert_eq. by eapply lookup_lt_Some.
  - rewrite outcome_open, H by done. by apply drain_all.
  - rewrite outcome_open, H by done.
    destruct (drain_all (ending cn) (pending cn)) as [-> ->]; done.
Qed.

(** C9. The body decodes every event it is given and reads its three fields:
    well-formed events are printed, and the first event that is not valid
    JSON or lacks a field makes [process_scores] raise [ValueError],
    [TypeError] or [KeyError] (never the cancellation).  The event was taken
    off the connection all the same, and the events behind it stay unread. *)
Theorem malformed_event_ends_consumption ws w cn good bad rest :
  conns w !! ws = Some cn → closed cn = false →
  pending cn = good ++ bad :: rest →
  Forall well_formed good → malformed bad →
  lets_through (mode w) (S (length good)) →
  ∃ x w' cn' printed,
    process_scores ws w = (Raise x, w') ∧
    x ≠ CancelledError ∧
    (x = ValueError ∨ x = TypeError ∨ ∃ key, x = KeyError key) ∧
    conns w' !! ws = Some cn' ∧
    received cn' = received cn ++ good ++ [bad] ∧
    pending cn' = rest ∧
    closed cn' = false ∧
    stdout w' = stdout w ++ printed ∧
    rendered good printed.
Proof.
  intros Hcn Hopen Hpend [printed Hr]%well_formed_rendered
    (x & Hx & Hkind)%malformed_render Hd.
  assert (Hws : ws < length (conns w)) by (by eapply lookup_lt_Some).
  assert (Ho : outcome (mode w) cn =
               mkOutcome (length good + 1) (Raise x) false
                         (match mode w with
                          | Within k => Within (k - length good - 1)
                          | other => other
                          end) (printed ++ [])).
  { rewrite outcome_open, Hpend by done.
    rewrite (drain_through _ _ _ _ printed) by (destruct (mode w); cbn in *; (done || lia) || done).
    destruct (mode w) as [|k|]; cbn in Hd |- *; try done.
    - by rewrite Hx.
    - destruct (k - length good) as [|k'] eqn:Hk; [lia|]. cbn. rewrite Hx.
      cbn. by rewrite Nat.sub_0_r. }
  exists x, (settle (outcome (mode w) cn) ws cn w),
    (consumed (outcome (mode w) cn) cn), printed.
  rewrite (process_scores_outcome _ _ _ Hcn). rewrite Ho. cbn.
  repeat split; try done.
  - intros ->. by apply render_not_cancelled in Hx.
  - by apply list_lookup_insert_eq.
  - by rewrite Hpend, take_past.
  - by rewrite Hpend, drop_past.
  - by rewrite Hopen.
  - by rewrite app_nil_r.
Qed.


Lemma closed_exn_not_cancelled e : closed_exn e ≠ CancelledError.
Proof. by destruct e. Qed.

(** C4. [process_scores] hands a cancellation on as it got it: thrown in at
    its [await], the [CancelledError] comes out again and the world is as it
    was; and it raises [CancelledError] in no other case, so a connection
    failure (or any failure of the stream) never looks like a cancellation.
    In [run] the cancellation of the listening task is not a failure: [run]
    never ends in [CancelledError], while a task that failed for another
    reason makes [run] fail with that very exception. *)
Theorem cancellation_is_passed_on ws w r w' e r0 w0 :
  process_scores ws w = (r, w') →
  run (boot e) = (r0, w0) →
  (mode w = Throw → r = Raise CancelledError ∧ w' = set_mode Forever w) ∧
  (r = Raise CancelledError → mode w = Throw) ∧
  r0 ≠ Raise CancelledError ∧
  (∀ x, tasks w0 = [Done (Raise x)] → x ≠ CancelledError → r0 = Raise x).
Proof.
  intros Hps Hrun. split; [|split].
  - intros Hmode. destruct (conns w !! ws) as [cn|] eqn:Hcn.
    + rewrite (process_scores_outcome _ _ _ Hcn), Hmode, outcome_throw in Hps.
      rewrite settle_nothing in Hps by done. by injection Hps as <- <-.
    + rewrite (process_scores_stray _ _ Hcn), Hmode in Hps.
      by injection Hps as <- <-.
  - intros ->. destruct (conns w !! ws) as [cn|] eqn:Hcn.
    + rewrite (process_scores_outcome _ _ _ Hcn) in Hps.
      injection Hps as Hr _. by apply outcome_cancelled in Hr.
    + rewrite (process_scores_stray _ _ Hcn) in Hps.
      by destruct (mode w).
  - apply run_paths in Hrun.
    destruct Hrun as [| | | ? ? ? o x ? Ho Hres | | | | | | |
                      ? ? ? ? ? ? ? o2 ? ? ? ? ? ? Ho2 Hres2];
      (split; [|intros y [= Hy] Hne; subst; try done]);
      try done; try (intros [= Hc]; by apply closed_exn_not_cancelled in Hc).
    + intros [= ->]. rewrite Ho in Hres. by apply drain_cancelled in Hres.
    + intros Hr. rewrite Ho2 in Hr. by apply drain_cancelled in Hr.
Qed.

(** ** The claims about [run] *)

Ltac unfold_trace :=
  unfold listened, parted, resumed, cancelled, suspended, subscribed, disconnect,
    consumed, mark_closed, took, wrote, open_conn in *; cbn in *.

(** C10. Consumption only reads.  Whatever the outcome of [process_scores]
    (cancellation included), the messages sent on every connection are the
    same after it as before, and it adds no [send] to the trace.  So on the
    first connection of [run] the client sends at most two messages, the
    string connect and then the string disconnect, and exactly these two once
    the session got as far as its suspension. *)
Theorem consumption_is_read_only ws w r w' e r0 w0 cn0 :
  process_scores ws w = (r, w') →
  run (boot e) = (r0, w0) →
  conns w0 !! 0 = Some cn0 →
  sent <$> conns w' = sent <$> conns w ∧
  (∀ c m, OSend c m ∈ trace w' → OSend c m ∈ trace w) ∧
  sent cn0 `prefix_of` [Str "connect"; Str "disconnect"] ∧
  (∀ m, m ∈ sent cn0 ↔ OSend 0 m ∈ trace w0) ∧
  (OSend 0 (Str "disconnect") ∈ trace w0 →
   sent cn0 = [Str "connect"; Str "disconnect"]).
Proof.
  intros Hps Hrun Hcn0.
  destruct (process_scores_frame _ _ _ _ Hps) as (Hsent & _ & _ & _ & _ & got & Htr).
  split; [done|]. split.
  { intros c m. rewrite Htr. set_solver. }
  apply run_paths in Hrun.
  destruct Hrun; cbn in Hcn0; try done; injection Hcn0 as <-; unfold_trace.
  all: split; [first [by exists [Str "connect"; Str "disconnect"]
                     | by exists [Str "disconnect"] | by exists []]|].
  all: split; [intros m; set_solver|set_solver].
Qed.

Ltac up_to_listened :=
  match goal with
  | |- context [ORecv 0 <$> ?got] =>
      exists ([OConnect 0; OSend 0 (Str "connect"); OSleep 10] ++ (ORecv 0 <$> got))
  end.


Ltac which_connection ws :=
  match goal with
  | Hin : OConnect ws ∈ _ |- _ =>
      first [ assert (ws = 0) as -> by set_solver
            | assert (ws = 0 ∨ ws = 1) as [-> | ->] by set_solver ]
  end.

Ltac up_to_parted :=
  match goal with
  | H : drop _ _ = ?tok :: _ |- context [ORecv 0 <$> ?got] =>
      exists ([OConnect 0; OSend 0 (Str "connect"); OSleep 10] ++ (ORecv 0 <$> got)
              ++ [OSend 0 (Str "disconnect"); ORecv 0 tok; OClose 0; OSleep 10])
  end.

Ltac not_a_send :=
  let Heq := fresh in
  intros ? ? Heq;
  try match type of Heq with
      | context [ORecv _ <$> ?got] => destruct got
      end;
  cbn in Heq; discriminate.

(** Each connection of [run] starts with its intent.  The operation that
    follows [connect] in the trace is the [send] of the intent (or, when the
    transport is already gone, the [close] on the way out), and the
    operation after the intent is not another [send]. *)
Lemma connect_then_intent e r w ws :
  run (boot e) = (r, w) → OConnect ws ∈ trace w →
  ∃ before after,
    trace w = before ++ OConnect ws :: after ∧
    (OConnect ws ∉ before) ∧ (OConnect ws ∉ after) ∧
    (∀ m, OSend ws m ∉ before) ∧ (∀ m, ORecv ws m ∉ before) ∧
    ((∃ rest, after = OClose ws :: rest ∧ ∀ m, OSend ws m ∉ rest) ∨
     (∃ intent rest cn,
        after = OSend ws intent :: rest ∧
        (∀ m rest', rest ≠ OSend ws m :: rest') ∧
        conns w !! ws = Some cn ∧ head (sent cn) = Some intent ∧
        (ws = 0 → intent = Str "connect") ∧
        (ws ≠ 0 →
         ∃ pre, before = pre ++ [OSend 0 (Str "disconnect"); ORecv 0 intent;
                                 OClose 0; OSleep 10]))).
Proof.
  intros Hrun%run_paths Hin.
  destruct Hrun; unfold_trace; try (exfalso; set_solver); which_connection ws.
  all: try (exists []; eexists; split; [cbn; reflexivity|]).
  all: try (up_to_parted; eexists; split;
            [cbn; rewrite <- ?app_assoc; cbn; reflexivity|]).
  all: split; [set_solver|]; split; [set_solver|];
    split; [set_solver|]; split; [set_solver|].
  all: try (left; eexists; split; [reflexivity|set_solver]).
  all: right; do 3 eexists; split; [reflexivity|]; split; [not_a_send|];
    split; [reflexivity|]; split; [reflexivity|]; split; [done|]; intros ?;
    try done; eexists; rewrite ?app_assoc; reflexivity.
Qed.

(** A list is cut at an element that occurs once in one way only. *)
Lemma cut_unique {A} (x : A) (l1 l2 k1 k2 : list A) :
  x ∉ l1 → x ∉ l2 → k1 ++ x :: k2 = l1 ++ x :: l2 → k1 = l1 ∧ k2 = l2.
Proof.
  revert k1. induction l1 as [|y l1 IH]; intros k1 H1 H2 Heq.
  - destruct k1 as [|z k1]; simplify_eq/=; [done|].
    exfalso. apply H2. set_solver.
  - destruct k1 as [|z k1]; simplify_eq/=.
    + exfalso. apply H1. set_solver.
    + destruct (IH k1) as [-> ->]; [set_solver|done|done|done].
Qed.


(** C8. The intent is what the script does first with a fresh transport:
    in the trace of [run] nothing stands between the [connect] of a
    connection and the first [send] on it, no read, no sleep, no operation on
    another connection.  The seconds the script lets pass between the two are
    therefore none, which is within the grace window of five. *)
Theorem intent_within_grace_window e r w ws before between intent after :
  run (boot e) = (r, w) →
  trace w = before ++ OConnect ws :: between ++ OSend ws intent :: after →
  (∀ m, OSend ws m ∉ between) →
  between = [] ∧ elapsed between = 0 ∧ elapsed between < grace_window.
Proof.
  intros Hrun Htr Hfirst.
  assert (Hin : OConnect ws ∈ trace w) by (rewrite Htr; set_solver).
  destruct (connect_then_intent _ _ _ _ Hrun Hin)
    as (b0 & a0 & Htr0 & Hb0 & Ha0 & _ & _ & Hnext).
  rewrite Htr in Htr0.
  apply cut_unique in Htr0 as [_ Hcut]; [|done|done].
  assert (between = []) as ->;
    [|unfold grace_window; cbn; repeat split; lia].
  destruct Hnext as [(rest & -> & Hnone)|(i0 & rest & cn & -> & _)].
  - destruct between as [|o between]; cbn in Hcut.
    + discriminate.
    + injection Hcut as -> Hcut. exfalso. apply (Hnone intent).
      rewrite <- Hcut. set_solver.
  - destruct between as [|o between]; [done|]. cbn in Hcut.
    injection Hcut as -> _. exfalso. apply (Hfirst i0). set_solver.
Qed.

(** C3. The checkpoint goes back as it came.  Whatever message [run] sends
    on the second connection, it is the value of the [recv] that followed
    the disconnect notice on the first connection, the same constructor and
    the same characters; it is the last message received on the first
    connection and the only message sent on the second.  The statement holds
    for every message: the script looks at none of its content. *)
Theorem checkpoint_round_trip e r w m :
  run (boot e) = (r, w) → OSend 1 m ∈ trace w →
  ∃ before after cn0 cn1,
    trace w = before
              ++ [OSend 0 (Str "disconnect"); ORecv 0 m; OClose 0; OSleep 10;
                  OConnect 1; OSend 1 m] ++ after ∧
    conns w !! 0 = Some cn0 ∧ last (received cn0) = Some m ∧
    conns w !! 1 = Some cn1 ∧ sent cn1 = [m].
Proof.
  intros Hrun%run_paths Hin.
  destruct Hrun; unfold_trace; try (exfalso; set_solver).
  all: match goal with
       | H : drop _ _ = ?tok :: _ |- _ =>
           assert (m = tok) as -> by set_solver
       end.
  all: up_to_listened; do 3 eexists.
  all: split; [cbn; rewrite <- ?app_assoc; cbn; reflexivity|].
  all: split; [reflexivity|]; split; [cbn; by rewrite last_snoc|].
  all: split; reflexivity.
Qed.

Lemma cancelled_listening k e events :
  result (drain (Within k) e events) = Blocked →
  taken (drain (Within k) e events) ≤ k ∧
  taken (drain (Within k) e events) ≤ length events ∧
  rendered (take (taken (drain (Within k) e events)) events)
           (lines (drain (Within k) e events)) ∧
  length (lines (drain (Within k) e events)) = taken (drain (Within k) e events) ∧
  saw_close (drain (Within k) e events) = false.
Proof.
  intros Hres.
  pose proof (drain_blocked_lines _ _ _ Hres) as Hlen.
  destruct (drain_lines (Within k) e events) as [Hr _]. rewrite Hlen in Hr.
  repeat split; auto using drain_within, drain_taken_le, drain_blocked.
Qed.

Lemma writable_after_listening s o :
  writable (open_conn s) = true → saw_close o = false →
  s_ending s = StayOpen ∨ 1 < s_accepts s →
  writable (consumed o (subscribed s)) = true.
Proof.
  unfold writable, consumed, subscribed, wrote, open_conn; cbn.
  intros _ -> [->|Hacc]; [done|].
  destruct (s_ending s); [done| |]; apply bool_decide_eq_true; lia.
Qed.

Lemma next_after_drop {A} (l : list A) n x rest y :
  drop n l = x :: rest → l !! n = Some y → y = x.
Proof.
  intros Hd Hl. assert (drop n l !! 0 = Some y) as H.
  { by rewrite lookup_drop, Nat.add_0_r. }
  rewrite Hd in H. by injection H.
Qed.

Lemma nothing_after_drop {A} (l : list A) n y :
  drop n l = [] → l !! n = Some y → False.
Proof.
  intros Hd Hl. assert (drop n l !! 0 = Some y) as H.
  { by rewrite lookup_drop, Nat.add_0_r. }
  by rewrite Hd in H.
Qed.

(** C6. When the listening task of [run] ends by the cancellation, the
    consumption stopped between two events: for some [n] no larger than what
    arrived within the window, the first [n] events of the server, each of
    them whole, were received in order and each left its line on standard
    output ([n] may be zero), and nothing else was taken off the connection.
    The connection is still open and in order: if the transport takes the
    notice, the suspension is the next thing on it, and the reply read there
    is the very next message of the server, the one after the [n]-th. *)
Theorem cancellation_between_events e r w :
  run (boot e) = (r, w) → tasks w = [Done (Raise CancelledError)] →
  ∃ s1 fut1 n after,
    e_future e = Some s1 :: fut1 ∧
    n ≤ e_window e ∧ n ≤ length (s_inbound s1) ∧
    trace w = listened (take n (s_inbound s1)) after ∧
    (∀ m, ORecv 0 m ∈ after → s_inbound s1 !! n = Some m) ∧
    rendered (take n (s_inbound s1)) (take n (stdout w)) ∧
    (s_ending s1 = StayOpen ∨ 1 < s_accepts s1 →
     ∃ after', after = OSend 0 (Str "disconnect") :: after' ∧
       ∀ tok, s_inbound s1 !! n = Some tok →
         ∃ after'', after' = ORecv 0 tok :: OClose 0 :: after'').
Proof.
  intros Hrun%run_paths Htasks.
  destruct Hrun as [| | |? ? ? o x ? Ho Hres| | | | | | |];
    cbn [tasks] in Htasks; try done.
  { injection Htasks as ->. rewrite Ho in Hres. by apply drain_cancelled in Hres. }
  all: match goal with
       | Ho : ?o = drain (Within _) _ _, Hres : result ?o = Blocked |- _ =>
           let H := fresh in
           pose proof Hres as H; rewrite Ho in H;
           apply cancelled_listening in H as (Hk & Hlen & Hr & Hlines & Hsaw);
           rewrite <- Ho in Hk, Hlen, Hr, Hlines, Hsaw
       end.
  all: do 3 eexists; eexists; split; [reflexivity|];
    split; [exact Hk|]; split; [exact Hlen|]; split; [reflexivity|].
  all: split; [intros m Hm; unfold parted, resumed, disconnect in Hm;
               first [ by (exfalso; set_solver)
                     | assert (m = tok) as -> by set_solver;
                       rewrite <- (Nat.add_0_r (taken o)), <- lookup_drop;
                       by match goal with H : drop _ _ = _ |- _ => rewrite H end ]|].
  all: split; [cbn [stdout];
               first [ by rewrite (take_ge (lines _)) by lia
                     | by rewrite take_app_length' ]|].
  all: intros Hacc;
    match goal with
    | Hw1 : writable (open_conn ?s) = true,
      Ha : s_ending ?s = StayOpen ∨ _ |- _ =>
        pose proof (writable_after_listening s _ Hw1 Hsaw Ha) as Hw
    end;
    try congruence.
  all: eexists; split; [reflexivity|]; intros t Ht.
  all: try (exfalso; eapply nothing_after_drop; eassumption).
  all: match goal with
       | H : drop _ _ = _ :: _ |- _ =>
           rewrite (next_after_drop _ _ _ _ _ H Ht)
       end; eexists; reflexivity.
Qed.


(** ** Termination of the model *)

(** The loop of [process_scores] is run with as many rounds as the connection
    has unread messages, plus one: it always comes to a result of the script's
    own (a return, an exception, or a wait for a message that is not there),
    never to the end of its rounds. *)
Lemma process_scores_finishes ws w : (process_scores ws w).1 ≠ Unfinished.
Proof.
  destruct (conns w !! ws) as [cn|] eqn:Hcn.
  - rewrite (process_scores_outcome ws w cn Hcn). apply outcome_finished.
  - rewrite (process_scores_stray ws w Hcn). by destruct (mode w).
Qed.

(** So does the whole script, in every environment. *)
Lemma run_finishes e : (run (boot e)).1 ≠ Unfinished.
Proof.
  pose proof (run_paths e (run (boot e)).1 (run (boot e)).2
                (surjective_pairing _)) as Hpath.
  destruct Hpath; cbn [fst]; try discriminate.
  subst. apply drain_finished.
Qed.


(** ** Further properties of [process_scores] and [run] *)

Lemma getitem_raises v key y :
  getitem v key = inl y → y = TypeError ∨ y = KeyError key.
Proof. unfold getitem. repeat case_match; intros [= <-]; eauto. Qed.

Lemma render_raises event x : render event = inl x → decoding_error x.
Proof.
  unfold render, loads, decoding_error.
  destruct (json_loads event) as [v|]; [|intros [= <-]; by left].
  destruct (getitem v "user_id") as [y|u] eqn:Hu.
  { intros [= <-]. apply getitem_raises in Hu as [->| ->]; [by eauto|].
    right; right; eexists; split; [|reflexivity]. set_solver. }
  destruct (getitem v "pp") as [y|p] eqn:Hp.
  { intros [= <-]. apply getitem_raises in Hp as [->| ->]; [by eauto|].
    right; right; eexists; split; [|reflexivity]. set_solver. }
  destruct (getitem v "beatmap_id") as [y|b] eqn:Hb; [|done].
  intros [= <-]. apply getitem_raises in Hb as [->| ->]; [by eauto|].
  right; right; eexists; split; [|reflexivity]. set_solver.
Qed.

Lemma drain_raises d e events x :
  result (drain d e events) = Raise x →
  x = CancelledError ∨ x = ConnectionClosedError ∨ decoding_error x.
Proof.
  revert d. induction events as [|event rest IH]; intros d.
  - destruct d as [|[|k]|]; cbn; try done; try (intros [= <-]; by left);
      destruct e; cbn; try done; intros [= <-]; right; by left.
  - destruct d as [|[|k]|]; cbn; try done; try (intros [= <-]; by left);
      destruct (render event) as [y|line] eqn:Hr; cbn; try apply IH;
      intros [= <-]; right; right; by eapply render_raises.
Qed.

Lemma elapsed_app ops1 ops2 : elapsed (ops1 ++ ops2) = elapsed ops1 + elapsed ops2.
Proof.
  induction ops1 as [|o ops1 IH]; cbn; [done|].
  fold (elapsed (ops1 ++ ops2)) (elapsed ops1). rewrite IH. destruct o; lia.
Qed.

Lemma elapsed_recv ws got : elapsed (ORecv ws <$> got) = 0.
Proof. induction got as [|m got IH]; cbn; [done|exact IH]. Qed.

(** [async with] closes what it opened.  When [run] is through, by a return
    or by an exception, every connection it opened is closed and a [close]
    of it is in the trace; while [run] waits, the connection it waits on is
    the last one opened, and that one is open. *)
Theorem connections_closed_on_exit e r w :
  run (boot e) = (r, w) →
  (r ≠ Blocked →
   Forall (fun cn => closed cn = true) (conns w) ∧
   ∀ ws, ws < length (conns w) → OClose ws ∈ trace w) ∧
  (r = Blocked →
   ∃ cn, last (conns w) = Some cn ∧ closed cn = false ∧
         (OClose (length (conns w) - 1) ∉ trace w)).
Proof.
  intros Hrun%run_paths.
  destruct Hrun as [| | | | |? ? ? o ? Ho Hres Hw| | | |? ? ? ? o ? ? o2 ? Ho Hres Hw ? ? Ho2 Hres2
                    |? ? ? ? o ? ? o2 ? Ho Hres Hw ? ? Ho2 Hres2];
    (split; [intros Hr|intros Hr]); try done.
  all: try (split; [repeat constructor|
                    intros ws Hws; cbn in Hws; unfold_trace;
                    assert (ws = 0 ∨ ws = 1) as [-> | ->] by lia;
                    first [lia | set_solver]]).
  - eexists. split; [reflexivity|]. split.
    + apply writable_open in Hw. exact Hw.
    + unfold_trace. set_solver.
  - eexists. split; [reflexivity|]. split.
    + rewrite Ho2 in Hres2. apply drain_blocked in Hres2.
      rewrite <- Ho2 in Hres2. cbn. by rewrite Hres2.
    + unfold_trace. set_solver.
Qed.

(** The script is bounded: it opens at most two connections and starts at
    most one task; it sleeps 0, 10 or 20 seconds in all, which is the sum of
    the sleeps in its trace; and it comes to the second connection only with
    both sleeps behind it. *)
Theorem run_is_bounded e r w :
  run (boot e) = (r, w) →
  length (conns w) ≤ 2 ∧ length (tasks w) ≤ 1 ∧
  (clock w = 0 ∨ clock w = 10 ∨ clock w = 20) ∧
  elapsed (trace w) = clock w ∧
  (tasks w = [] ↔ clock w = 0) ∧
  (length (conns w) = 2 → clock w = 20).
Proof.
  intros Hrun%run_paths.
  destruct Hrun; cbn [conns tasks clock trace length];
    unfold listened, parted, resumed, cancelled;
    rewrite ?elapsed_app, ?elapsed_recv; cbn; repeat split; try lia; try done.
Qed.


(** A refused connection.  When the first attempt to connect is refused,
    [run] raises [OSError] having done nothing: no connection, no task, no
    output, an empty trace.  And [run] raises [OSError] in one other case
    only, the refusal of the second attempt, after a suspension that was
    answered and with the first connection closed. *)
Theorem connection_refused e r w :
  run (boot e) = (r, w) →
  (head (e_future e) = None ∨ head (e_future e) = Some None →
   r = Raise OSError ∧ conns w = [] ∧ tasks w = [] ∧ stdout w = [] ∧
   trace w = []) ∧
  (r = Raise OSError →
   trace w = [] ∨
   ∃ before tok cn0,
     trace w = before ++ [OSend 0 (Str "disconnect"); ORecv 0 tok; OClose 0;
                          OSleep 10; OClose 0] ∧
     conns w = [cn0] ∧ closed cn0 = true ∧ last (received cn0) = Some tok).
Proof.
  intros Hrun%run_paths.
  destruct Hrun as [| | |? ? ? o x ? Ho Hres| | | | | |
                    |? ? ? ? o ? ? o2 ? Ho Hres Hw ? ? Ho2 Hres2];
    split; cbn [e_future head].
  all: try (intros [[=]|[=]]; fail).
  all: try (intros [=]; fail).
  all: try (intros _; repeat split; fail).
  all: try (by left).
  all: try (by destruct (s_ending s1)).
  all: try (by destruct (s_ending s2)).
  - intros [= ->]. rewrite Ho in Hres.
    apply drain_raises in Hres as [?|[?|[?|[?|(key & _ & ?)]]]]; done.
  - intros _. right. cbn [trace conns].
    exists ([OConnect 0; OSend 0 (Str "connect"); OSleep 10]
            ++ (ORecv 0 <$> take (taken o) (s_inbound s1))), tok.
    eexists. split; [|split; [reflexivity|split; [reflexivity|]]].
    + unfold listened, parted, disconnect. cbn. reflexivity.
    + unfold suspended, took; cbn. by rewrite last_snoc.
  - intros Hr. exfalso. rewrite Ho2 in Hr.
    apply drain_raises in Hr as [?|[?|[?|[?|(key & _ & ?)]]]]; done.
Qed.


Lemma drain_returned_lines d e events :
  result (drain d e events) = Ok () →
  length (lines (drain d e events)) = taken (drain d e events).
Proof.
  revert d. induction events as [|event rest IH]; intros d.
  - destruct d as [|[|k]|]; cbn; try done; destruct e; done.
  - destruct d as [|[|k]|]; cbn; try done;
      destruct (render event); cbn; try done; intros H; f_equal; by apply IH.
Qed.

(** The one way [run] returns.  It does so only at the end of the resumed
    stream: both connections were opened and are closed, the second was sent
    the checkpoint that came last on the first and nothing else, the server
    ended the second stream with a normal close, and every event of that
    stream was received and printed.  The listening task was cancelled and
    both sleeps were slept. *)
Theorem run_returns_at_end_of_resumed_stream e w :
  run (boot e) = (Ok (), w) →
  ∃ cn0 cn1 tok printed0 printed1,
    conns w = [cn0; cn1] ∧ closed cn0 = true ∧ closed cn1 = true ∧
    last (received cn0) = Some tok ∧ sent cn1 = [tok] ∧
    ending cn1 = CloseOK ∧ pending cn1 = [] ∧
    received cn1 = inbound_of e 1 ∧
    stdout w = printed0 ++ printed1 ∧ rendered (inbound_of e 1) printed1 ∧
    tasks w = [Done (Raise CancelledError)] ∧ clock w = 20 ∧
    ∃ before, trace w = before ++ [OClose 1; OClose 0].
Proof.
  intros Hrun%run_paths.
  remember (Ok ()) as r eqn:Hr.
  destruct Hrun as [| | | | | | | | |
                    |? s2 ? ? o tok ? o2 ? Ho Hres Hw ? ? Ho2 Hres2];
    try discriminate.
  pose proof Hr as Hlines. rewrite Ho2 in Hr, Hlines.
  apply drain_returned in Hr as (Hend & Hsaw & Htaken).
  apply drain_returned_lines in Hlines.
  destruct (drain_lines Forever (s_ending s2) (s_inbound s2)) as [Hrend _].
  rewrite Hlines, Htaken, firstn_all in Hrend.
  rewrite <- Ho2 in Htaken, Hrend.
  do 2 eexists. exists tok, (lines o), (lines o2).
  split; [reflexivity|]. split; [reflexivity|]. split; [reflexivity|].
  split; [unfold suspended, took; cbn; by rewrite last_snoc|].
  split; [reflexivity|]. split; [exact Hend|].
  unfold inbound_of; cbn.
  split; [by rewrite Htaken, drop_all|].
  split; [by rewrite Htaken, firstn_all|].
  split; [reflexivity|]. split; [exact Hrend|].
  split; [reflexivity|]. split; [reflexivity|].
  eexists (listened _ (parted _ ([OConnect 1; OSend 1 tok] ++ (ORecv 1 <$> _)))).
  unfold listened, parted, resumed. by rewrite <- !app_assoc.
Qed.

(** A first stream that ends while the script listens.  Let the first
    connection be accepted, let all the events of the server be well-formed
    and arrive before the ten seconds are over, and let the server then
    close the connection normally.  Then the listening task returns, with
    every event received and printed, the cancellation finds nothing to
    cancel, and [run] fails all the same: the [send] of the notice raises
    [ConnectionClosedOK], the notice is not sent, and there is no second
    connection. *)
Theorem stream_end_while_listening e s1 fut printed :
  e_future e = Some s1 :: fut →
  s_ending s1 = CloseOK → 0 < s_accepts s1 →
  length (s_inbound s1) < e_window e →
  rendered (s_inbound s1) printed →
  ∃ w cn0,
    run (boot e) = (Raise ConnectionClosedOK, w) ∧
    tasks w = [Done (Ok ())] ∧
    stdout w = printed ∧
    trace w = listened (s_inbound s1) [OClose 0] ∧
    conns w = [cn0] ∧ closed cn0 = true ∧
    received cn0 = s_inbound s1 ∧ pending cn0 = [] ∧
    sent cn0 = [Str "connect"].
Proof.
  intros Hfut Hend Hacc Hk Hr.
  assert (Ho : ∃ d, drain (Within (e_window e)) CloseOK (s_inbound s1)
                    = mkOutcome (length (s_inbound s1)) (Ok ()) true d printed).
  { pose proof (drain_through (Within (e_window e)) CloseOK (s_inbound s1) []
                  printed) as Hd.
    rewrite app_nil_r in Hd. rewrite Hd by (cbn; done || lia).
    destruct (e_window e - length (s_inbound s1)) as [|j] eqn:Hj; [lia|].
    eexists. cbn. by rewrite Nat.add_0_r, app_nil_r. }
  destruct Ho as [d Ho].
  assert (Hw1 : writable (open_conn s1) = true).
  { unfold writable, open_conn; cbn. rewrite Hend.
    apply bool_decide_eq_true; lia. }
  destruct e as [f k]; cbn in Hfut, Hk, Ho; subst f.
  destruct (run (boot _)) as [r w] eqn:Hrun. apply run_paths in Hrun.
  inversion Hrun; subst.
  all: rewrite ?Hend in *; rewrite ?Ho in *;
    cbn [result taken saw_close left lines] in *; try discriminate;
    try congruence.
  do 2 eexists. split; [reflexivity|]. split; [reflexivity|].
  split; [reflexivity|]. cbn [trace conns].
  split; [by rewrite firstn_all|]. split; [reflexivity|].
  cbn. by rewrite firstn_all, drop_all.
Qed.

(** ** The loop, to the end of a stream and across an interruption *)

(** How a stream ends decides how the loop ends.  On an open connection,
    with no cancellation and the time it takes, [process_scores] receives
    and prints every event of the server when all are well-formed (none, on
    an empty stream), and then: it returns when the server closes normally,
    it raises [ConnectionClosedError] when the connection is lost, and it
    goes on waiting when the server stays silent.  The connection is known
    closed exactly in the first two cases. *)
Theorem stream_end_decides_outcome ws w cn :
  conns w !! ws = Some cn → closed cn = false → mode w = Forever →
  Forall well_formed (pending cn) →
  ∃ w' cn' printed,
    process_scores ws w = (stream_end (ending cn), w') ∧
    conns w' !! ws = Some cn' ∧
    received cn' = received cn ++ pending cn ∧ pending cn' = [] ∧
    closed cn' = (if ending cn is StayOpen then false else true) ∧
    stdout w' = stdout w ++ printed ∧ rendered (pending cn) printed ∧
    trace w' = trace w ++ (ORecv ws <$> pending cn).
Proof.
  intros Hcn Hopen Hmode [printed Hr]%well_formed_rendered.
  rewrite (process_scores_outcome _ _ _ Hcn), Hmode, outcome_open by done.
  pose proof (drain_through Forever (ending cn) (pending cn) [] printed I Hr)
    as Hd.
  rewrite app_nil_r in Hd. rewrite Hd.
  do 2 eexists. exists printed. split.
  - f_equal. by destruct (ending cn).
  - cbn [settle conns stdout trace].
    split; [apply list_lookup_insert_eq; by eapply lookup_lt_Some|].
    unfold consumed; cbn [received pending closed taken saw_close lines].
    rewrite Hopen.
    assert (Hn : taken (drain Forever (ending cn) []) = 0)
      by (by destruct (ending cn)).
    rewrite Hn, Nat.add_0_r, firstn_all, drop_all.
    repeat split; try done; destruct (ending cn); cbn; by rewrite ?app_nil_r.
Qed.


(** The loop stopped by the end of the window and run again, against the
    loop run once. *)
Lemma drain_resume k e events :
  result (drain (Within k) e events) = Blocked →
  drain Forever e events =
  let o1 := drain (Within k) e events in
  let o2 := drain Forever e (drop (taken o1) events) in
  mkOutcome (taken o1 + taken o2) (result o2) (saw_close o2) (left o2)
            (lines o1 ++ lines o2).
Proof.
  revert k. induction events as [|event rest IH]; intros [|k]; cbn.
  - by destruct e.
  - by destruct e.
  - intros _. by destruct (render event), (drain Forever e rest).
  - destruct (render event) as [x|line]; cbn; [done|].
    intros Hres. by rewrite (IH k Hres).
Qed.

(** An interruption of the loop loses nothing and repeats nothing.  When
    [process_scores] has taken what arrived within a window and is left
    waiting, running it again with all the time it takes ends in the same
    world, with the same outcome, as running it once with all the time from
    the start: the same events received in the same order, the same lines,
    the same trace. *)
Theorem consumption_resumes ws w k w1 :
  mode w = Within k → process_scores ws w = (Blocked, w1) →
  process_scores ws (set_mode Forever w1) =
  process_scores ws (set_mode Forever w).
Proof.
  intros Hmode Hrun.
  destruct (conns w !! ws) as [cn|] eqn:Hcn; cycle 1.
  { rewrite (process_scores_stray _ _ Hcn), Hmode in Hrun. done. }
  rewrite (process_scores_outcome _ _ _ Hcn), Hmode in Hrun.
  destruct (closed cn) eqn:Hopen.
  { unfold outcome in Hrun. rewrite Hopen in Hrun.
    by destruct (ending cn). }
  rewrite outcome_open in Hrun by done.
  injection Hrun as Hres <-.
  pose proof (drain_blocked _ _ _ Hres) as Hsaw.
  pose proof (drain_resume _ _ _ Hres) as Hd. cbn zeta in Hd.
  set (o1 := drain (Within k) (ending cn) (pending cn)) in *.
  assert (Hws : ws < length (conns w)) by (by eapply lookup_lt_Some).
  rewrite (process_scores_outcome ws (set_mode Forever w) cn) by done.
  rewrite (process_scores_outcome ws _ (consumed o1 cn))
    by (cbn; by apply list_lookup_insert_eq).
  cbn [mode set_mode].
  rewrite !outcome_open by (done || (cbn; by rewrite Hopen, Hsaw)).
  cbn [ending pending consumed]. rewrite Hd.
  set (o2 := drain Forever (ending cn) (drop (taken o1) (pending cn))).
  cbn [result]. f_equal.
  unfold settle, consumed, set_mode.
  cbn [conns tasks future window mode clock stdout trace sent received
       pending ending accepts closed taken saw_close left lines].
  rewrite list_insert_insert_eq, Hopen, Hsaw, drop_drop.
  rewrite <- !app_assoc, <- fmap_app, !take_take_drop.
  reflexivity.
Qed.

(** ** What [run] prints *)

Lemma notice_cut got rest before after :
  listened got (OSend 0 disconnect :: rest)
    = before ++ OSend 0 (Str "disconnect") :: after →
  (OSend 0 (Str "disconnect") ∉ rest) → after = rest.
Proof.
  unfold listened, disconnect. rewrite app_assoc. intros Heq Hrest.
  symmetry in Heq. apply cut_unique in Heq as [_ ->]; [done| |done].
  set_solver.
Qed.

Lemma no_notice ops before after :
  (OSend 0 (Str "disconnect") ∉ ops) →
  ops ≠ before ++ OSend 0 (Str "disconnect") :: after.
Proof. intros Hno ->. set_solver. Qed.

(** The lines of [run] are the scores of the events, in order: first those
    of the first [m1] events of the first connection, no more than arrived
    within the window, then those of the first [m2] events of the second.
    The checkpoint is not among them: the message that answers the notice is
    the one after the [m1] printed events, and it is not decoded, whatever
    it holds. *)
Theorem run_prints_scores_in_order e r w :
  run (boot e) = (r, w) →
  ∃ m1 m2,
    m1 ≤ e_window e ∧
    m1 ≤ length (inbound_of e 0) ∧ m2 ≤ length (inbound_of e 1) ∧
    rendered (take m1 (inbound_of e 0) ++ take m2 (inbound_of e 1))
             (stdout w) ∧
    (m2 ≠ 0 → OConnect 1 ∈ trace w) ∧
    ∀ before tok after,
      trace w = before ++ OSend 0 (Str "disconnect") :: ORecv 0 tok :: after →
      inbound_of e 0 !! m1 = Some tok.
Proof.
  intros Hrun%run_paths.
  destruct Hrun as [fut k Hfut|s1 ? k ?|s1 ? k o ? Ho Hres
                    |s1 ? k o x ? Ho Hres|s1 ? k o ? Ho Hres
                    |s1 ? k o ? Ho Hres|s1 ? k o ? Ho Hres
                    |s1 ? k o tok ? ? Ho Hres ? Hdrop
                    |s1 s2 ? k o tok ? ? Ho Hres ? Hdrop
                    |s1 s2 ? k o tok ? o2 ? Ho Hres ? Hdrop ? Ho2
                    |s1 s2 ? k o tok ? o2 ? Ho Hres ? Hdrop ? Ho2].
  1,2: exists 0, 0; cbn [e_window stdout trace take app];
    repeat split; try lia; try done; try constructor;
    intros before tok after Heq; exfalso; revert Heq; apply no_notice;
    set_solver.
  1,2: exists (length (lines o)), 0;
    destruct (drain_lines (Within k) (s_ending s1) (s_inbound s1))
      as [Hr Hle];
    pose proof (drain_within k (s_ending s1) (s_inbound s1)) as Hk;
    pose proof (drain_taken_le (Within k) (s_ending s1) (s_inbound s1)) as Hn;
    rewrite <- Ho in Hr, Hle, Hk, Hn;
    unfold inbound_of; cbn [e_future e_window stdout trace lookup list_lookup];
    rewrite take_0, app_nil_r;
    repeat split; try lia; try done;
    intros before tok after Heq; exfalso; revert Heq; apply no_notice;
    unfold listened; set_solver.
  all: pose proof Hres as Hc; rewrite Ho in Hc;
    apply cancelled_listening in Hc as (Hk & Hn & Hr & Hlen & _);
    rewrite <- Ho in Hk, Hn, Hr, Hlen.
  1-5: exists (taken o), 0;
    unfold inbound_of; cbn [e_future e_window stdout trace lookup list_lookup];
    rewrite take_0, app_nil_r;
    repeat split; try lia; try done.
  6,7: exists (taken o), (length (lines o2));
    destruct (drain_lines Forever (s_ending s2) (s_inbound s2)) as [Hr2 Hle2];
    pose proof (drain_taken_le Forever (s_ending s2) (s_inbound s2)) as Hn2;
    rewrite <- Ho2 in Hr2, Hle2, Hn2;
    unfold inbound_of; cbn [e_future e_window stdout trace lookup list_lookup];
    repeat split; try lia; try (by apply Forall2_app);
    try (intros _; unfold listened, parted, resumed; set_solver).
  all: intros before tok' after Heq.
  - exfalso. revert Heq. apply no_notice. unfold listened. set_solver.
  - apply notice_cut in Heq; [done|set_solver].
  - apply notice_cut in Heq; [done|set_solver].
  - unfold parted in Heq. apply notice_cut in Heq; [|set_solver].
    injection Heq as -> _.
    by rewrite <- (Nat.add_0_r (taken o)), <- lookup_drop, Hdrop.
  - unfold parted in Heq. apply notice_cut in Heq; [|set_solver].
    injection Heq as -> _.
    by rewrite <- (Nat.add_0_r (taken o)), <- lookup_drop, Hdrop.
  - unfold parted, resumed in Heq. apply notice_cut in Heq; [|set_solver].
    injection Heq as -> _.
    by rewrite <- (Nat.add_0_r (taken o)), <- lookup_drop, Hdrop.
  - unfold parted, resumed in Heq. apply notice_cut in Heq; [|set_solver].
    injection Heq as -> _.
    by rewrite <- (Nat.add_0_r (taken o)), <- lookup_drop, Hdrop.
Qed.

(** ** The entry point *)

Lemma foldl_fixed {A B} (f : A → B → A) (a : A) (l : list B) :
  (∀ b, b ∈ l → f a b = a) → foldl f a l = a.
Proof.
  induction l as [|b l IH]; cbn; [done|]. intros Hf.
  rewrite Hf by set_solver. apply IH. intros; apply Hf; set_solver.
Qed.

(** Where no task is pending, the clean-up of [asyncio.run] has nothing to
    do. *)
Lemma cancel_all_idle w :
  Forall (fun t => ¬ is_pending t) (tasks w) → cancel_all w = w.
Proof.
  intros Hdone.
  assert (Hnot : ∀ h co c, tasks w !! h ≠ Some (Pending co c)).
  { intros h co c Hh. eapply Forall_lookup_1 in Hdone; [|exact Hh].
    apply Hdone. by do 2 eexists. }
  unfold cancel_all. cbn zeta.
  rewrite (foldl_fixed (fun w' h => snd (cancel h w'))).
  - apply foldl_fixed. intros h _. unfold run_task.
    destruct (tasks w !! h) as [[co c|r]|] eqn:Hh; try done.
    by apply Hnot in Hh.
  - intros h _. unfold cancel.
    destruct (tasks w !! h) as [[co c|r]|] eqn:Hh; try done.
    by apply Hnot in Hh.
Qed.

(** The script leaves no task behind.  However [run] ends, its listening
    task (if it got as far as starting one) is finished, so the clean-up of
    [asyncio.run] cancels nothing and the program ends as [run] does, in the
    world [run] left. *)
Theorem main_ends_as_run e :
  main (boot e) = run (boot e) ∧
  Forall (fun t => ¬ is_pending t) (tasks (run (boot e)).2).
Proof.
  assert (Hdone : Forall (fun t => ¬ is_pending t) (tasks (run (boot e)).2)).
  { pose proof (run_paths e _ _ (surjective_pairing (run (boot e)))) as Hp.
    destruct Hp; cbn [tasks]; unfold cancelled; repeat constructor;
      by intros (co & c & ?). }
  split; [|exact Hdone].
  unfold main, asyncio_run.
  destruct (run (boot e)) as [r w]. cbn [snd] in Hdone.
  rewrite (cancel_all_idle w Hdone). by destruct r.
Qed.

(** ** The suspension that succeeds, and the listening that fails *)

(** A suspension on a live connection.  With the transport still taking a
    message and at least one message of the server unread, lines 25-29 send
    the notice and nothing else, take exactly the next message as the
    checkpoint, and close: what the server sent behind it stays unread,
    nothing is printed, and the other connections are untouched. *)
Theorem suspension_takes_next_message ws w cn tok rest :
  mode w = Forever → conns w !! ws = Some cn →
  writable cn = true → pending cn = tok :: rest →
  ∃ w' cn',
    suspend ws w = (Ok tok, w') ∧
    conns w' !! ws = Some cn' ∧
    sent cn' = sent cn ++ [Str "disconnect"] ∧
    received cn' = received cn ++ [tok] ∧
    pending cn' = rest ∧ closed cn' = true ∧
    trace w' = trace w ++ [OSend ws (Str "disconnect"); ORecv ws tok; OClose ws] ∧
    stdout w' = stdout w ∧
    (∀ ws', ws' ≠ ws → conns w' !! ws' = conns w !! ws').
Proof.
  intros Hmode Hcn Hw Hp.
  assert (Hws : ws < length (conns w)) by (by eapply lookup_lt_Some).
  rewrite (suspend_outcome _ _ _ Hmode Hcn), Hw, Hp.
  do 2 eexists. split; [reflexivity|].
  assert (Hcn' : <[ws:=suspended tok rest cn]> (conns w) !! ws
                 = Some (suspended tok rest cn))
    by (by apply list_lookup_insert_eq).
  split; [exact Hcn'|].
  repeat split.
  intros ws' Hne. cbn. by apply list_lookup_insert_ne.
Qed.

(** The two ways the loop fails: at the end of a stream that was lost, with
    every event printed, or on the first event its body cannot process,
    which was received and not printed. *)
Lemma drain_failed d e events x :
  result (drain d e events) = Raise x → x ≠ CancelledError →
  (x = ConnectionClosedError ∧ e = CloseError ∧
   taken (drain d e events) = length events ∧
   length (lines (drain d e events)) = length events) ∨
  (decoding_error x ∧
   taken (drain d e events) = S (length (lines (drain d e events))) ∧
   ∃ bad, events !! length (lines (drain d e events)) = Some bad ∧
          render bad = inl x).
Proof.
  revert d. induction events as [|event rest IH]; intros d.
  - destruct d as [|[|k]|]; cbn; try done; try (by intros [= <-]);
      destruct e; cbn; try done; intros [= <-] _; by left.
  - destruct d as [|[|k]|]; cbn; try done; try (by intros [= <-]);
      destruct (render event) as [y|line] eqn:Hr; cbn.
    + intros [= <-] _. right. split; [by eapply render_raises|]. eauto.
    + intros Hres Hx.
      destruct (IH _ Hres Hx) as [(-> & -> & -> & ->)|(? & -> & ?)]; eauto.
    + intros [= <-] _. right. split; [by eapply render_raises|]. eauto.
    + intros Hres Hx.
      destruct (IH _ Hres Hx) as [(-> & -> & -> & ->)|(? & -> & ?)]; eauto.
Qed.

(** A listening that fails.  When the listening task ends with an exception
    of its own (the connection was lost, or an event could not be
    processed), [run] raises that exception and the suspension does not
    take place: no notice is sent, no checkpoint is read, no second
    connection is opened; the one connection is closed on the way out.  On
    an event that could not be processed, that event was received and is
    the only one received that left no line. *)
Theorem failed_listening_skips_suspension e r w x :
  run (boot e) = (r, w) → tasks w = [Done (Raise x)] → x ≠ CancelledError →
  r = Raise x ∧ (x = ConnectionClosedError ∨ decoding_error x) ∧
  (OSend 0 (Str "disconnect") ∉ trace w) ∧ (OConnect 1 ∉ trace w) ∧
  ∃ cn0,
    conns w = [cn0] ∧ closed cn0 = true ∧ sent cn0 = [Str "connect"] ∧
    (x = ConnectionClosedError →
     received cn0 = inbound_of e 0 ∧
     length (stdout w) = length (received cn0)) ∧
    (decoding_error x →
     length (received cn0) = S (length (stdout w)) ∧
     ∃ bad, last (received cn0) = Some bad ∧ render bad = inl x).
Proof.
  intros Hrun%run_paths Htasks Hx.
  destruct Hrun as [| | |s1 ? k o y ? Ho Hres| | | | | | |];
    cbn [tasks] in Htasks; unfold cancelled in Htasks; try done;
    try (by injection Htasks as <-).
  injection Htasks as ->.
  pose proof (drain_taken_le (Within k) (s_ending s1) (s_inbound s1)) as Hn.
  rewrite Ho in Hres.
  destruct (drain_failed _ _ _ _ Hres Hx)
    as [(-> & Hend & Htaken & Hlines)|(Hdec & Htaken & bad & Hbad & Hr)];
    rewrite <- Ho in *.
  all: split; [reflexivity|]; split; [by eauto|].
  all: split; [unfold listened; set_solver|].
  all: split; [unfold listened; set_solver|].
  all: eexists; split; [reflexivity|]; split; [reflexivity|].
  all: split; [reflexivity|].
  all: unfold inbound_of; cbn.
  - split.
    + intros _. rewrite Htaken, firstn_all. split; [done|]. by rewrite Hlines.
    + intros [[=]|[[=]|(key & _ & [=])]].
  - split.
    + intros ->. by destruct Hdec as [[=]|[[=]|(key & _ & [=])]].
    + intros _. rewrite length_take, Htaken. split; [lia|].
      exists bad. split; [|done].
      rewrite (take_S_r _ _ bad) by done. by rewrite last_snoc.
Qed.

(** ** The session that goes through *)

(** When it all goes well.  Let the first connection be accepted and stay
    usable, let exactly the well-formed events [good] arrive while the
    script listens, and let one more message [tok] come after them; let the
    second connection be accepted, take the intent, and deliver well-formed
    events until the server closes it normally.  Then [run] returns: it
    prints the scores of [good], takes [tok] as the checkpoint, sends it back
    as the intent of the second connection, and prints the scores of every
    event of the second stream. *)
Theorem run_succeeds e s1 s2 fut good tok rest printed1 printed2 :
  e_future e = Some s1 :: Some s2 :: fut →
  s_inbound s1 = good ++ tok :: rest → length good = e_window e →
  rendered good printed1 →
  s_ending s1 = StayOpen ∨ 1 < s_accepts s1 →
  s_ending s2 = CloseOK → 0 < s_accepts s2 →
  rendered (s_inbound s2) printed2 →
  ∃ w,
    run (boot e) = (Ok (), w) ∧
    stdout w = printed1 ++ printed2 ∧
    trace w = listened good
                (parted tok (resumed tok (s_inbound s2) [OClose 1; OClose 0])).
Proof.
  intros Hfut Hin Hk Hr1 Hacc Hend2 Hacc2 Hr2.
  assert (Ho1 : drain (Within (length good)) (s_ending s1) (good ++ tok :: rest)
                = mkOutcome (length good) Blocked false (Within 0) printed1).
  { rewrite (drain_through _ _ good _ printed1) by (cbn; done || lia).
    rewrite Nat.sub_diag. cbn. by rewrite Nat.add_0_r, app_nil_r. }
  assert (Ho2 : drain Forever CloseOK (s_inbound s2)
                = mkOutcome (length (s_inbound s2)) (Ok ()) true Forever printed2).
  { pose proof (drain_through Forever CloseOK (s_inbound s2) [] printed2 I Hr2)
      as Hd.
    rewrite app_nil_r in Hd. rewrite Hd. cbn.
    by rewrite Nat.add_0_r, app_nil_r. }
  assert (Hw1 : writable (open_conn s1) = true).
  { unfold writable, open_conn; cbn. destruct Hacc as [->|Hacc]; [done|].
    destruct (s_ending s1); [done| |]; apply bool_decide_eq_true; lia. }
  assert (Hw2 : writable (open_conn s2) = true).
  { unfold writable, open_conn; cbn. rewrite Hend2.
    apply bool_decide_eq_true; lia. }
  destruct e as [f k]; cbn in Hfut, Hk; subst f k.
  destruct (run (boot _)) as [r w] eqn:Hrun. apply run_paths in Hrun.
  inversion Hrun; subst.
  all: rewrite ?Hend2 in *; rewrite ?Hin in *; rewrite ?Ho1, ?Ho2 in *;
    cbn [result taken saw_close left lines] in *; try discriminate; try done.
  all: try congruence.
  all: repeat match goal with
       | H : drop (length ?g) (?g ++ _) = _ |- _ =>
           rewrite drop_app_length in H
       end.
  all: try discriminate.
  all: try match goal with
       | H : writable (consumed ?o (subscribed ?s)) = false,
         Hw : writable (open_conn ?s) = true,
         Ha : s_ending ?s = StayOpen ∨ _ |- _ =>
           pose proof (writable_after_listening s o Hw eq_refl Ha);
           congruence
       end.
  match goal with H : _ :: _ = _ :: _ |- _ => injection H as <- <- end.
  eexists. split; [reflexivity|]. split; [reflexivity|].
  cbn [trace]. by rewrite take_app_length, firstn_all.
Qed.
End Client.

(** ** The theorems at work on the scenario of the spec *)

Lemma sample_well_formed_1 : well_formed sample_loads (Bytes "{1}").
Proof.
  eexists. split; [reflexivity|]. repeat split; eexists; reflexivity.
Qed.

Lemma sample_well_formed_2 : well_formed sample_loads (Bytes "{2}").
Proof.
  eexists. split; [reflexivity|]. repeat split; eexists; reflexivity.
Qed.

Lemma sample_malformed : malformed sample_loads (Bytes "{}").
Proof.
  right. exists (JDict []), "user_id". split; [reflexivity|].
  split; [set_solver|]. by intros [x Hx].
Qed.

(** The script against the server that goes away: the listening is
    cancelled after one event, the notice goes out, the connection is lost
    before any answer, and [run] raises what the transport raised. *)
Lemma lossy_run :
  run sample_loads sample_format (boot lossy_env) =
  (Raise ConnectionClosedError,
   mkWorld [mkConn [Str "connect"; Str "disconnect"] [Bytes "{1}"] []
                   CloseError 3 true]
           [Done (Raise CancelledError)] [] 1 Forever 10
           ["2 got 727.0pp on 1"]
           [OConnect 0; OSend 0 (Str "connect"); OSleep 10;
            ORecv 0 (Bytes "{1}"); OSend 0 (Str "disconnect"); OClose 0]).
Proof. vm_compute. reflexivity. Qed.

(** The scenario of [demo_env], run to its end. *)
Lemma demo_run :
  (run sample_loads sample_format (boot demo_env)).1 = Ok () ∧
  trace (run sample_loads sample_format (boot demo_env)).2 =
    [OConnect 0; OSend 0 (Str "connect"); OSleep 10;
     ORecv 0 (Bytes "{1}"); ORecv 0 (Bytes "{2}");
     OSend 0 (Str "disconnect"); ORecv 0 (Str "abc123"); OClose 0; OSleep 10;
     OConnect 1; OSend 1 (Str "abc123"); ORecv 1 (Bytes "{2}");
     OClose 1; OClose 0] ∧
  stdout (run sample_loads sample_format (boot demo_env)).2 =
    ["2 got 727.0pp on 1"; "3 got 100.5pp on 2"; "3 got 100.5pp on 2"].
Proof. vm_compute. done. Qed.



Lemma checkpoint_round_trip_witness :
  ∃ before after cn0 cn1,
    trace (run sample_loads sample_format (boot demo_env)).2 =
      before
      ++ [OSend 0 (Str "disconnect"); ORecv 0 (Str "abc123"); OClose 0;
          OSleep 10; OConnect 1; OSend 1 (Str "abc123")] ++ after ∧
    conns (run sample_loads sample_format (boot demo_env)).2 !! 0 = Some cn0 ∧
    last (received cn0) = Some (Str "abc123") ∧
    conns (run sample_loads sample_format (boot demo_env)).2 !! 1 = Some cn1 ∧
    sent cn1 = [Str "abc123"].
Proof.
  apply (checkpoint_round_trip sample_loads sample_format demo_env
           (run sample_loads sample_format (boot demo_env)).1).
  - apply surjective_pairing.
  - apply (bool_decide_unpack _). vm_compute. exact I.
Defined.

Lemma cancellation_is_passed_on_witness :
  process_scores sample_loads sample_format 0
    (demo_world [Bytes "{1}"] StayOpen Throw) =
  (Raise CancelledError,
   set_mode Forever (demo_world [Bytes "{1}"] StayOpen Throw)) ∧
  (run sample_loads sample_format (boot demo_env)).1 ≠ Raise CancelledError.
Proof.
  destruct (cancellation_is_passed_on sample_loads sample_format 0
              (demo_world [Bytes "{1}"] StayOpen Throw)
              (process_scores sample_loads sample_format 0
                 (demo_world [Bytes "{1}"] StayOpen Throw)).1
              (process_scores sample_loads sample_format 0
                 (demo_world [Bytes "{1}"] StayOpen Throw)).2
              demo_env
              (run sample_loads sample_format (boot demo_env)).1
              (run sample_loads sample_format (boot demo_env)).2)
    as (Hthrown & _ & Hrun & _).
  - apply surjective_pairing.
  - apply surjective_pairing.
  - split; [|exact Hrun].
    destruct (Hthrown eq_refl) as [Hr Hw].
    rewrite (surjective_pairing (process_scores _ _ _ _)), Hr, Hw.
    reflexivity.
Defined.

Lemma events_delivered_in_order_witness :
  ∃ n cn' printed,
    n ≤ 2 ∧
    conns (process_scores sample_loads sample_format 0
             (demo_world [Bytes "{1}"; Bytes "{2}"] CloseOK Forever)).2 !! 0
      = Some cn' ∧
    received cn' = [] ++ take n [Bytes "{1}"; Bytes "{2}"] ∧
    pending cn' = drop n [Bytes "{1}"; Bytes "{2}"] ∧
    trace (process_scores sample_loads sample_format 0
             (demo_world [Bytes "{1}"; Bytes "{2}"] CloseOK Forever)).2
      = [OConnect 0; OSend 0 (Str "connect")]
        ++ (ORecv 0 <$> take n [Bytes "{1}"; Bytes "{2}"]) ∧
    stdout (process_scores sample_loads sample_format 0
              (demo_world [Bytes "{1}"; Bytes "{2}"] CloseOK Forever)).2
      = [] ++ printed ∧
    rendered sample_loads sample_format
      (take (length printed) [Bytes "{1}"; Bytes "{2}"]) printed ∧
    length printed ≤ n ∧
    (Forever = Forever → false = false →
     Forall (well_formed sample_loads) [Bytes "{1}"; Bytes "{2}"] →
     n = 2 ∧ length printed = n).
Proof.
  apply (events_delivered_in_order sample_loads sample_format 0
           (demo_world [Bytes "{1}"; Bytes "{2}"] CloseOK Forever)
           (mkConn [Str "connect"] [] [Bytes "{1}"; Bytes "{2}"] CloseOK 3 false)
           (process_scores sample_loads sample_format 0
              (demo_world [Bytes "{1}"; Bytes "{2}"] CloseOK Forever)).1).
  - reflexivity.
  - apply surjective_pairing.
Defined.

Lemma malformed_event_ends_consumption_witness :
  ∃ x w' cn' printed,
    process_scores sample_loads sample_format 0
      (demo_world [Bytes "{1}"; Bytes "{}"; Bytes "{2}"] StayOpen (Within 5))
      = (Raise x, w') ∧
    x ≠ CancelledError ∧
    (x = ValueError ∨ x = TypeError ∨ ∃ key, x = KeyError key) ∧
    conns w' !! 0 = Some cn' ∧
    received cn' = [] ++ [Bytes "{1}"] ++ [Bytes "{}"] ∧
    pending cn' = [Bytes "{2}"] ∧
    closed cn' = false ∧
    stdout w' = [] ++ printed ∧
    rendered sample_loads sample_format [Bytes "{1}"] printed.
Proof.
  apply (malformed_event_ends_consumption sample_loads sample_format 0
           (demo_world [Bytes "{1}"; Bytes "{}"; Bytes "{2}"] StayOpen (Within 5))
           (mkConn [Str "connect"] [] [Bytes "{1}"; Bytes "{}"; Bytes "{2}"]
                   StayOpen 3 false)
           [Bytes "{1}"] (Bytes "{}") [Bytes "{2}"]).
  - reflexivity.
  - reflexivity.
  - reflexivity.
  - repeat constructor. apply sample_well_formed_1.
  - apply sample_malformed.
  - cbn. lia.
Defined.

Lemma cancellation_between_events_witness :
  ∃ s1 fut1 n after,
    e_future demo_env = Some s1 :: fut1 ∧
    n ≤ e_window demo_env ∧ n ≤ length (s_inbound s1) ∧
    trace (run sample_loads sample_format (boot demo_env)).2 =
      listened (take n (s_inbound s1)) after ∧
    (∀ m, ORecv 0 m ∈ after → s_inbound s1 !! n = Some m) ∧
    rendered sample_loads sample_format (take n (s_inbound s1))
      (take n (stdout (run sample_loads sample_format (boot demo_env)).2)) ∧
    (s_ending s1 = StayOpen ∨ 1 < s_accepts s1 →
     ∃ after', after = OSend 0 (Str "disconnect") :: after' ∧
       ∀ tok, s_inbound s1 !! n = Some tok →
         ∃ after'', after' = ORecv 0 tok :: OClose 0 :: after'').
Proof.
  apply (cancellation_between_events sample_loads sample_format demo_env
           (run sample_loads sample_format (boot demo_env)).1).
  - apply surjective_pairing.
  - vm_compute. reflexivity.
Defined.



Lemma intent_within_grace_window_witness :
  (@nil Op) = [] ∧ elapsed (@nil Op) = 0 ∧ elapsed (@nil Op) < grace_window.
Proof.
  apply (intent_within_grace_window sample_loads sample_format demo_env
           (run sample_loads sample_format (boot demo_env)).1
           (run sample_loads sample_format (boot demo_env)).2
           1
           [OConnect 0; OSend 0 (Str "connect"); OSleep 10;
            ORecv 0 (Bytes "{1}"); ORecv 0 (Bytes "{2}");
            OSend 0 (Str "disconnect"); ORecv 0 (Str "abc123"); OClose 0;
            OSleep 10]
           [] (Str "abc123")
           [ORecv 1 (Bytes "{2}"); OClose 1; OClose 0]).
  - apply surjective_pairing.
  - vm_compute. reflexivity.
  - intros m. apply not_elem_of_nil.
Defined.

Lemma consumption_is_read_only_witness :
  sent <$> conns (process_scores sample_loads sample_format 0
                    (demo_world [Bytes "{1}"; Bytes "{2}"] StayOpen (Within 1))).2
    = sent <$> conns (demo_world [Bytes "{1}"; Bytes "{2}"] StayOpen (Within 1)) ∧
  (∀ c m,
     OSend c m ∈ trace (process_scores sample_loads sample_format 0
                          (demo_world [Bytes "{1}"; Bytes "{2}"] StayOpen
                                      (Within 1))).2 →
     OSend c m ∈ trace (demo_world [Bytes "{1}"; Bytes "{2}"] StayOpen (Within 1))) ∧
  [Str "connect"; Str "disconnect"] `prefix_of` [Str "connect"; Str "disconnect"] ∧
  (∀ m, m ∈ [Str "connect"; Str "disconnect"] ↔
        OSend 0 m ∈ trace (run sample_loads sample_format (boot demo_env)).2) ∧
  (OSend 0 (Str "disconnect")
     ∈ trace (run sample_loads sample_format (boot demo_env)).2 →
   [Str "connect"; Str "disconnect"] = [Str "connect"; Str "disconnect"]).
Proof.
  apply (consumption_is_read_only sample_loads sample_format 0
           (demo_world [Bytes "{1}"; Bytes "{2}"] StayOpen (Within 1))
           (process_scores sample_loads sample_format 0
              (demo_world [Bytes "{1}"; Bytes "{2}"] StayOpen (Within 1))).1
           (process_scores sample_loads sample_format 0
              (demo_world [Bytes "{1}"; Bytes "{2}"] StayOpen (Within 1))).2
           demo_env
           (run sample_loads sample_format (boot demo_env)).1
           (run sample_loads sample_format (boot demo_env)).2
           (mkConn [Str "connect"; Str "disconnect"]
                   [Bytes "{1}"; Bytes "{2}"; Str "abc123"] [Bytes "{x}"]
                   StayOpen 0 true)).
  - apply surjective_pairing.
  - apply surjective_pairing.
  - vm_compute. reflexivity.
Defined.

(** ** The further properties at work *)

Lemma connections_closed_on_exit_witness :
  ((run sample_loads sample_format (boot demo_env)).1 ≠ Blocked →
   Forall (fun cn => closed cn = true)
          (conns (run sample_loads sample_format (boot demo_env)).2) ∧
   ∀ ws, ws < length (conns (run sample_loads sample_format (boot demo_env)).2) →
         OClose ws ∈ trace (run sample_loads sample_format (boot demo_env)).2) ∧
  ((run sample_loads sample_format (boot demo_env)).1 = Blocked →
   ∃ cn, last (conns (run sample_loads sample_format (boot demo_env)).2) = Some cn ∧
         closed cn = false ∧
         (OClose (length (conns (run sample_loads sample_format (boot demo_env)).2) - 1)
            ∉ trace (run sample_loads sample_format (boot demo_env)).2)).
Proof.
  apply (connections_closed_on_exit sample_loads sample_format demo_env).
  apply surjective_pairing.
Defined.

Lemma run_is_bounded_witness :
  length (conns (run sample_loads sample_format (boot demo_env)).2) ≤ 2 ∧
  length (tasks (run sample_loads sample_format (boot demo_env)).2) ≤ 1 ∧
  (clock (run sample_loads sample_format (boot demo_env)).2 = 0 ∨
   clock (run sample_loads sample_format (boot demo_env)).2 = 10 ∨
   clock (run sample_loads sample_format (boot demo_env)).2 = 20) ∧
  elapsed (trace (run sample_loads sample_format (boot demo_env)).2)
    = clock (run sample_loads sample_format (boot demo_env)).2 ∧
  (tasks (run sample_loads sample_format (boot demo_env)).2 = [] ↔
   clock (run sample_loads sample_format (boot demo_env)).2 = 0) ∧
  (length (conns (run sample_loads sample_format (boot demo_env)).2) = 2 →
   clock (run sample_loads sample_format (boot demo_env)).2 = 20).
Proof.
  apply (run_is_bounded sample_loads sample_format demo_env
           (run sample_loads sample_format (boot demo_env)).1).
  apply surjective_pairing.
Defined.

Lemma connection_refused_witness :
  (head (e_future absent_env) = None ∨ head (e_future absent_env) = Some None →
   (run sample_loads sample_format (boot absent_env)).1 = Raise OSError ∧
   conns (run sample_loads sample_format (boot absent_env)).2 = [] ∧
   tasks (run sample_loads sample_format (boot absent_env)).2 = [] ∧
   stdout (run sample_loads sample_format (boot absent_env)).2 = [] ∧
   trace (run sample_loads sample_format (boot absent_env)).2 = []) ∧
  ((run sample_loads sample_format (boot absent_env)).1 = Raise OSError →
   trace (run sample_loads sample_format (boot absent_env)).2 = [] ∨
   ∃ before tok cn0,
     trace (run sample_loads sample_format (boot absent_env)).2
       = before ++ [OSend 0 (Str "disconnect"); ORecv 0 tok; OClose 0;
                    OSleep 10; OClose 0] ∧
     conns (run sample_loads sample_format (boot absent_env)).2 = [cn0] ∧
     closed cn0 = true ∧ last (received cn0) = Some tok).
Proof.
  apply (connection_refused sample_loads sample_format absent_env).
  apply surjective_pairing.
Defined.


Lemma run_returns_at_end_of_resumed_stream_witness :
  ∃ cn0 cn1 tok printed0 printed1,
    conns (run sample_loads sample_format (boot demo_env)).2 = [cn0; cn1] ∧
    closed cn0 = true ∧ closed cn1 = true ∧
    last (received cn0) = Some tok ∧ sent cn1 = [tok] ∧
    ending cn1 = CloseOK ∧ pending cn1 = [] ∧
    received cn1 = inbound_of demo_env 1 ∧
    stdout (run sample_loads sample_format (boot demo_env)).2
      = printed0 ++ printed1 ∧
    rendered sample_loads sample_format (inbound_of demo_env 1) printed1 ∧
    tasks (run sample_loads sample_format (boot demo_env)).2
      = [Done (Raise CancelledError)] ∧
    clock (run sample_loads sample_format (boot demo_env)).2 = 20 ∧
    ∃ before,
      trace (run sample_loads sample_format (boot demo_env)).2
        = before ++ [OClose 1; OClose 0].
Proof.
  apply (run_returns_at_end_of_resumed_stream sample_loads sample_format
           demo_env).
  vm_compute. reflexivity.
Defined.


Lemma stream_end_decides_outcome_witness :
  ∃ w' cn' printed,
    process_scores sample_loads sample_format 0
      (demo_world [Bytes "{1}"; Bytes "{2}"] CloseError Forever)
      = (stream_end CloseError, w') ∧
    conns w' !! 0 = Some cn' ∧
    received cn' = [] ++ [Bytes "{1}"; Bytes "{2}"] ∧ pending cn' = [] ∧
    closed cn' = true ∧
    stdout w' = [] ++ printed ∧
    rendered sample_loads sample_format [Bytes "{1}"; Bytes "{2}"] printed ∧
    trace w' = [OConnect 0; OSend 0 (Str "connect")]
               ++ (ORecv 0 <$> [Bytes "{1}"; Bytes "{2}"]).
Proof.
  apply (stream_end_decides_outcome sample_loads sample_format 0
           (demo_world [Bytes "{1}"; Bytes "{2}"] CloseError Forever)
           (mkConn [Str "connect"] [] [Bytes "{1}"; Bytes "{2}"] CloseError 3
                   false)).
  - reflexivity.
  - reflexivity.
  - reflexivity.
  - repeat constructor; [apply sample_well_formed_1|apply sample_well_formed_2].
Defined.


Lemma consumption_resumes_witness :
  process_scores sample_loads sample_format 0
    (set_mode Forever
       (process_scores sample_loads sample_format 0
          (demo_world [Bytes "{1}"; Bytes "{2}"] StayOpen (Within 1))).2)
  = process_scores sample_loads sample_format 0
      (set_mode Forever
         (demo_world [Bytes "{1}"; Bytes "{2}"] StayOpen (Within 1))).
Proof.
  apply (consumption_resumes sample_loads sample_format 0
           (demo_world [Bytes "{1}"; Bytes "{2}"] StayOpen (Within 1)) 1).
  - reflexivity.
  - vm_compute. reflexivity.
Defined.

Lemma run_prints_scores_in_order_witness :
  ∃ m1 m2,
    m1 ≤ e_window demo_env ∧
    m1 ≤ length (inbound_of demo_env 0) ∧ m2 ≤ length (inbound_of demo_env 1) ∧
    rendered sample_loads sample_format
      (take m1 (inbound_of demo_env 0) ++ take m2 (inbound_of demo_env 1))
      (stdout (run sample_loads sample_format (boot demo_env)).2) ∧
    (m2 ≠ 0 → OConnect 1 ∈ trace (run sample_loads sample_format (boot demo_env)).2) ∧
    ∀ before tok after,
      trace (run sample_loads sample_format (boot demo_env)).2
        = before ++ OSend 0 (Str "disconnect") :: ORecv 0 tok :: after →
      inbound_of demo_env 0 !! m1 = Some tok.
Proof.
  apply (run_prints_scores_in_order sample_loads sample_format demo_env
           (run sample_loads sample_format (boot demo_env)).1).
  apply surjective_pairing.
Defined.


Lemma failed_listening_skips_suspension_witness :
  (run sample_loads sample_format (boot faulty_env)).1
    = Raise (KeyError "user_id") ∧
  (KeyError "user_id" = ConnectionClosedError ∨
   decoding_error (KeyError "user_id")) ∧
  (OSend 0 (Str "disconnect")
     ∉ trace (run sample_loads sample_format (boot faulty_env)).2) ∧
  (OConnect 1 ∉ trace (run sample_loads sample_format (boot faulty_env)).2) ∧
  ∃ cn0,
    conns (run sample_loads sample_format (boot faulty_env)).2 = [cn0] ∧
    closed cn0 = true ∧ sent cn0 = [Str "connect"] ∧
    (KeyError "user_id" = ConnectionClosedError →
     received cn0 = inbound_of faulty_env 0 ∧
     length (stdout (run sample_loads sample_format (boot faulty_env)).2)
       = length (received cn0)) ∧
    (decoding_error (KeyError "user_id") →
     length (received cn0)
       = S (length (stdout (run sample_loads sample_format (boot faulty_env)).2)) ∧
     ∃ bad, last (received cn0) = Some bad ∧
            render sample_loads sample_format bad = inl (KeyError "user_id")).
Proof.
  apply (failed_listening_skips_suspension sample_loads sample_format
           faulty_env).
  - apply surjective_pairing.
  - vm_compute. reflexivity.
  - discriminate.
Defined.

Lemma run_succeeds_witness :
  ∃ w,
    run sample_loads sample_format (boot demo_env) = (Ok (), w) ∧
    stdout w = ["2 got 727.0pp on 1"; "3 got 100.5pp on 2"]
               ++ ["3 got 100.5pp on 2"] ∧
    trace w = listened [Bytes "{1}"; Bytes "{2}"]
                (parted (Str "abc123")
                   (resumed (Str "abc123") [Bytes "{2}"] [OClose 1; OClose 0])).
Proof.
  apply (run_succeeds sample_loads sample_format demo_env
           (mkScript [Bytes "{1}"; Bytes "{2}"; Str "abc123"; Bytes "{x}"]
                     StayOpen 0)
           (mkScript [Bytes "{2}"] CloseOK 5) []
           [Bytes "{1}"; Bytes "{2}"] (Str "abc123") [Bytes "{x}"]).
  - reflexivity.
  - reflexivity.
  - reflexivity.
  - repeat constructor.
  - left. reflexivity.
  - reflexivity.
  - cbn. lia.
  - repeat constructor.
Defined.

Lemma stream_end_while_listening_witness :
  ∃ w cn0,
    run sample_loads sample_format (boot closing_env)
      = (Raise ConnectionClosedOK, w) ∧
    tasks w = [Done (Ok ())] ∧
    stdout w = ["2 got 727.0pp on 1"] ∧
    trace w = listened [Bytes "{1}"] [OClose 0] ∧
    conns w = [cn0] ∧ closed cn0 = true ∧
    received cn0 = [Bytes "{1}"] ∧ pending cn0 = [] ∧
    sent cn0 = [Str "connect"].
Proof.
  apply (stream_end_while_listening sample_loads sample_format closing_env
           (mkScript [Bytes "{1}"] CloseOK 5) []).
  - reflexivity.
  - reflexivity.
  - cbn. lia.
  - cbn. lia.
  - repeat constructor.
Defined.

Lemma suspension_takes_next_message_witness :
  ∃ w' cn',
    suspend 0 (demo_world [Str "abc123"; Bytes "{x}"] StayOpen Forever)
      = (Ok (Str "abc123"), w') ∧
    conns w' !! 0 = Some cn' ∧
    sent cn' = [Str "connect"] ++ [Str "disconnect"] ∧
    received cn' = [] ++ [Str "abc123"] ∧
    pending cn' = [Bytes "{x}"] ∧ closed cn' = true ∧
    trace w' = [OConnect 0; OSend 0 (Str "connect")]
               ++ [OSend 0 (Str "disconnect"); ORecv 0 (Str "abc123"); OClose 0] ∧
    stdout w' = [] ∧
    (∀ ws', ws' ≠ 0 →
       conns w' !! ws'
       = conns (demo_world [Str "abc123"; Bytes "{x}"] StayOpen Forever) !! ws').
Proof.
  apply (suspension_takes_next_message 0
           (demo_world [Str "abc123"; Bytes "{x}"] StayOpen Forever)
           (mkConn [Str "connect"] [] [Str "abc123"; Bytes "{x}"] StayOpen 3
                   false)).
  - reflexivity.
  - reflexivity.
  - reflexivity.
  - reflexivity.
Defined.
